(** * A shallow embedding of [src/parser.js]

    The propositional-logic parser: [tokenise], [split_by_parens],
    [combine_unary], [process_operators], [reformat], [parse], and the
    consumers of the tree, [form_rpn], [evaluate] and [create_truth_table].

    The source file holds the pipeline twice, character for character; the
    embedding follows the second copy (the one that is followed by
    [evaluate], [find_symbols] and [create_truth_table]).

    Conventions.
    - A JavaScript string is the list of its code points, which is what
      [for (const char of input)] iterates over.
    - A thrown string is [Thrown msg]; the exception the runtime raises when
      a property of [undefined] is read is [TypeError].
    - [parse] is an [async] function: a throw inside it rejects the promise
      it returns.  The embedding returns [Err e] for a rejection with [e]
      and [Ok v] for a promise fulfilled with [v]. *)

From Stdlib Require Import String.
From stdpp Require Import gmap list.

Local Open Scope N_scope.

(** ** Strings *)

Definition char := N.
Definition str := list char.

(** The code points of an ASCII literal. *)
Definition lit (s : string) : str :=
  map (fun b => Ascii.N_of_ascii b) (list_ascii_of_string s).

Definition c_or : char := 0x2228.       (* ∨ *)
Definition c_and : char := 0x2227.      (* ∧ *)
Definition c_not : char := 0xAC.        (* ¬ *)
Definition c_implies : char := 0x2192.  (* → *)
Definition c_iff : char := 0x2194.      (* ↔ *)
Definition c_converse : char := 0x2190. (* ← *)
Definition c_open : char := 0x28.       (* ( *)
Definition c_close : char := 0x29.      (* ) *)

Definition BASE_OPERATORS : list char :=
  [c_or; c_and; c_not; c_implies; c_iff; c_converse; c_open; c_close].

Definition EXTRA_OPERATORS : list (str * str) :=
  [ (lit "or", [c_or]);
    (lit "and", [c_and]);
    (lit "not", [c_not]);
    (lit "implies", [c_implies]);
    (lit "impl", [c_implies]);
    (lit "->", [c_implies]);
    (lit "<->", [c_iff]);
    (lit "==", [c_iff]);
    (lit "<-", [c_converse]) ].

(** [Array.prototype.includes] on an array of strings or characters. *)
Definition includes {A} `{EqDecision A} (l : list A) (x : A) : bool :=
  bool_decide (x ∈ l).

(** [/\s/.test(char)]: the class [\s] of ECMAScript, that is the WhiteSpace
    and LineTerminator code points.  The literal is evaluated afresh at each
    test, so its [g] flag starts from index 0 every time. *)
Definition is_space (c : char) : bool :=
  includes [0x9; 0xA; 0xB; 0xC; 0xD; 0x20; 0xA0; 0x1680; 0x2028; 0x2029;
            0x202F; 0x205F; 0x3000; 0xFEFF] c
  || ((0x2000 <=? c) && (c <=? 0x200A)).

(** [String.prototype.toLowerCase].  Its result is only ever compared with
    the keys of [EXTRA_OPERATORS], which are made of ASCII letters and of
    [-], [<], [>], [=].  Outside ASCII the only code points whose lower case
    contains an ASCII character are U+0130 (lower case [i] followed by
    U+0307) and U+212A (lower case [k]); neither can complete a key, so for
    that comparison lower-casing the ASCII capitals is exact. *)
Definition toLowerCase (s : str) : str :=
  map (fun c => if (0x41 <=? c) && (c <=? 0x5A) then c + 0x20 else c) s.

Local Close Scope N_scope.

(** ** Tokens *)

(** [{type: 'op', str}], [{type: 'sp'}] and [{type: 'str', str}]. *)
Inductive token :=
| Op (s : str)
| Sp
| Str (s : str).

Definition is_str (t : token) : bool :=
  match t with Str _ => true | _ => false end.

Definition is_sp (t : token) : bool :=
  match t with Sp => true | _ => false end.

Definition is_op (t : token) : bool :=
  match t with Op _ => true | _ => false end.

(** One turn of the [for (const char of input)] loop of [tokenise]. *)
Definition tokenise_step (tokens : list token) (c : char) : list token :=
  if includes BASE_OPERATORS c then
    tokens ++ [Op [c]]
  else if is_space c then
    match last tokens with
    | Some Sp => tokens
    | _ => tokens ++ [Sp]
    end
  else
    match last tokens with
    | Some (Str s) => removelast tokens ++ [Str (s ++ [c])]
    | _ => tokens ++ [Str [c]]
    end.

(** The token list when the loop ends. *)
Definition tokenise_scan (input : str) : list token :=
  fold_left tokenise_step input [].

(** The callback of the final [map]: aliases become operators. *)
Definition resolve_alias (tok : token) : token :=
  match tok with
  | Str s =>
      match List.find (fun kv => bool_decide (kv.1 = toLowerCase s))
                      EXTRA_OPERATORS with
      | Some kv => Op kv.2
      | None => tok
      end
  | _ => tok
  end.

Definition tokenise (input : str) : list token :=
  map resolve_alias (filter (fun tok => is_sp tok = false) (tokenise_scan input)).

(** ** Failures *)

Inductive error :=
| Thrown (msg : string)   (* [throw 'msg'] *)
| TypeError               (* a property of [undefined] was read *)
| OutOfFuel.              (* never returned by [parse]: see [process_operators] *)

Inductive result (A : Type) :=
| Ok (v : A)
| Err (e : error).
Arguments Ok {A} v.
Arguments Err {A} e.

Definition bind {A B} (r : result A) (k : A -> result B) : result B :=
  match r with
  | Ok v => k v
  | Err e => Err e
  end.

Notation "x <- r ;; k" := (bind r (fun x => k))
  (at level 100, r at next level, right associativity).

(** ** The grouped structure *)

(** An element of a JavaScript array of the pipeline: a token, a nested
    array, or [undefined] (which [combine_unary] can store, see there). *)
#[warnings="-register-all"]
Inductive node :=
| Tok (t : token)
| Arr (l : list node)
| Undefined.

(** [push_with_depth] for a depth [d] that is not negative; the recursion of
    the source, on [depth - 1], is the recursion on [d].  The arrays are
    mutated in place in the source; [tree] is reachable from the local
    variable of [split_by_parens] only, so the updated array is returned. *)
Fixpoint push_at (d : nat) (tree : list node) (obj : node) : list node :=
  match d with
  | O => tree ++ [obj]
  | S d' =>
      match last tree with
      | Some (Arr inner) => removelast tree ++ [Arr (push_at d' inner obj)]
      | _ => tree ++ [Arr (push_at d' [] obj)]
      end
  end.

(** The three branches of the source; lemma [push_with_depth_unfold] states
    the third one as the source writes it. *)
Definition push_with_depth (tree : list node) (obj : node) (depth : Z)
  : result (list node) :=
  if (depth =? 0)%Z then Ok (tree ++ [obj])
  else if (depth <? 0)%Z then Err (Thrown "cannot push with negative depth")
  else Ok (push_at (Z.to_nat depth) tree obj).

(** The [while (tree.length == 1 && Array.isArray(tree[0]))] loop of the
    opening-parenthesis branch, started on the array [l] of [Arr l]: each
    turn replaces [tree] by [tree[0]] and decrements [depth]. *)
Fixpoint descend (tree : node) (depth : Z) : list node * Z :=
  match tree with
  | Arr [x] =>
      match x with
      | Arr _ => descend x (depth - 1)
      | _ => ([x], depth)
      end
  | Arr l => (l, depth)
  | _ => ([], depth)
  end.

(** The [while (depth < 0)] loop of the closing-parenthesis branch. *)
Fixpoint wrap (n : nat) (tree : list node) : list node :=
  match n with
  | O => tree
  | S n' => wrap n' [Arr tree]
  end.

(** The callback of [tokens.forEach] in [split_by_parens], on the pair of
    the local variables [tree] and [depth]. *)
Definition split_step (st : list node * Z) (token : token)
  : result (list node * Z) :=
  let '(tree, depth) := st in
  match token with
  | Op s =>
      if bool_decide (s = [c_open]) then
        Ok (descend (Arr tree) (depth + 1))
      else if bool_decide (s = [c_close]) then
        let depth := (depth - 1)%Z in
        if (depth <? 0)%Z then Ok (wrap (Z.to_nat (- depth)) tree, 0%Z)
        else Ok (tree, depth)
      else
        tree' <- push_with_depth tree (Tok token) depth ;; Ok (tree', depth)
  | _ => tree' <- push_with_depth tree (Tok token) depth ;; Ok (tree', depth)
  end.

Fixpoint split_loop (tokens : list token) (st : list node * Z)
  : result (list node * Z) :=
  match tokens with
  | [] => Ok st
  | token :: rest => st' <- split_step st token ;; split_loop rest st'
  end.

Definition split_by_parens (tokens : list token) : result (list node) :=
  st <- split_loop tokens ([], 0%Z) ;; Ok st.1.

(** [result.shift()]: the first element, or [undefined] on an empty array. *)
Definition shift (result : list node) : node * list node :=
  match result with
  | [] => (Undefined, [])
  | x :: rest => (x, rest)
  end.

(** [combine_unary] on an element that is an array; the inner fold is the
    [forEach] over the reversed array, which [unshift]s into [result]. *)
Fixpoint combine_unary_node (n : node) : result node :=
  match n with
  | Arr tree =>
      r <- fold_right (fun node acc =>
             result <- acc ;;
             match node with
             | Arr _ => c <- combine_unary_node node ;; Ok (c :: result)
             | Tok (Op s) =>
                 if bool_decide (s = [c_not])
                 then Ok (Arr [node; (shift result).1] :: (shift result).2)
                 else Ok (node :: result)
             | Tok _ => Ok (node :: result)
             | Undefined => Err TypeError
             end) (Ok []) tree ;;
      Ok (Arr r)
  | _ => Ok n
  end.

Definition combine_unary (tree : list node) : result (list node) :=
  r <- combine_unary_node (Arr tree) ;;
  match r with
  | Arr l => Ok l
  | _ => Err TypeError   (* not reached: [combine_unary_node_Arr] *)
  end.

(** [process_operators].  The [for] loop runs [i] from [tree.length - 1]
    down to 0; [process_loop] is entered with [i + 1] and carries [rhs].
    [rec] stands for the recursive call [process_operators(_, ops)]. *)
Definition process_loop (rec : list node -> result (list node))
    (tree : list node) (ops : list str)
  : nat -> list node -> result (list node) :=
  fix loop (i : nat) (rhs : list node) {struct i} : result (list node) :=
    match i with
    | O => Ok rhs
    | S i =>
        match tree !! i with
        | Some (Arr l) =>
            r <- rec l ;;
            loop i (Arr r :: rhs)
        | Some (Tok (Op s)) =>
            if includes ops s then
              lhs <- rec (take i tree) ;;
              Ok [Arr lhs; Tok (Op s); Arr rhs]
            else loop i (Tok (Op s) :: rhs)
        | Some (Tok t) => loop i (Tok t :: rhs)
        | Some Undefined | None => Err TypeError
        end
    end.

(** The two recursive calls are on an element of [tree] and on
    [tree.slice(0, i)], neither of which is a structural subterm of [tree]
    as the loop indexes it, so the recursion is bounded by [fuel];
    [process_operators] supplies enough of it (lemma
    [process_operators_fuel_error]). *)
Fixpoint process_operators_fuel (fuel : nat) (tree : list node)
    (ops : list str) : result (list node) :=
  match fuel with
  | O => Err OutOfFuel
  | S fuel' =>
      process_loop (fun t => process_operators_fuel fuel' t ops)
                   tree ops (length tree) []
  end.

(** The number of array slots in a structure, nested ones included. *)
Fixpoint node_weight (n : node) : nat :=
  match n with
  | Arr l => S (fold_right (fun x acc => node_weight x + acc)%nat O l)
  | _ => 1%nat
  end.

Definition weight (tree : list node) : nat :=
  fold_right (fun x acc => node_weight x + acc)%nat O tree.

Definition process_operators (tree : list node) (ops : list str)
  : result (list node) :=
  process_operators_fuel (S (weight tree)) tree ops.

(** ** The syntax tree *)

(** A leaf is a JavaScript string; an operator node is [{op, args}]. *)
#[warnings="-register-all"]
Inductive ast :=
| Leaf (name : str)
| Node (op : str) (args : list ast).

(** [!Array.isArray(x) && x.type == 'op'] *)
Definition bare_operator (x : node) : result bool :=
  match x with
  | Arr _ => Ok false
  | Tok t => Ok (is_op t)
  | Undefined => Err TypeError
  end.

(** [Array.isArray(x) || x.type != 'op'] *)
Definition not_operator (x : node) : result bool :=
  match x with
  | Arr _ => Ok true
  | Tok t => Ok (negb (is_op t))
  | Undefined => Err TypeError
  end.

(** [x.str] of an operator token. *)
Definition op_str (x : node) : str :=
  match x with
  | Tok (Op s) => s
  | _ => []
  end.

Fixpoint reformat (tree : node) : result ast :=
  match tree with
  | Undefined => Err TypeError
  | Tok (Str s) => Ok (Leaf s)
  | Tok _ => Err (Thrown "operator has no operand")
  | Arr [] => Err (Thrown "empty expression")
  | Arr [x] =>
      match x with
      | Arr _ => reformat x
      | Tok (Str s) => Ok (Leaf s)
      | Tok _ => Err (Thrown "operator has no operand")
      | Undefined => Err TypeError
      end
  | Arr [x0; x1] =>
      bad0 <- not_operator x0 ;;
      bad1 <- (if bad0 then Ok true else bare_operator x1) ;;
      if bad1 then Err (Thrown "malformed unary operator")
      else
        a <- reformat x1 ;;
        Ok (Node (op_str x0) [a])
  | Arr [x0; x1; x2] =>
      bad1 <- not_operator x1 ;;
      bad0 <- (if bad1 then Ok true else bare_operator x0) ;;
      bad2 <- (if bad0 then Ok true else bare_operator x2) ;;
      if bad2 then Err (Thrown "malformed binary operator")
      else
        a <- reformat x0 ;;
        b <- reformat x2 ;;
        Ok (Node (op_str x1) [a; b])
  | Arr _ => Err (Thrown "malformed expression")
  end.

Definition parse (input : str) : result ast :=
  let tokens := tokenise input in
  tree <- split_by_parens tokens ;;
  tree <- combine_unary tree ;;
  tree <- process_operators tree [[c_iff]] ;;
  tree <- process_operators tree [[c_converse]; [c_implies]] ;;
  tree <- process_operators tree [[c_or]] ;;
  tree <- process_operators tree [[c_and]] ;;
  reformat (Arr tree).

(** ** Evaluation *)

(** The assignment [ctx] is a plain object whose own properties bind symbol
    names to booleans: the finite map of its own properties, with
    [Object.prototype] as its prototype.  [Object_prototype_keys] are the
    property names a plain object inherits from [Object.prototype]. *)
Definition Object_prototype_keys : list str :=
  map lit [ "constructor"; "__defineGetter__"; "__defineSetter__";
            "hasOwnProperty"; "__lookupGetter__"; "__lookupSetter__";
            "isPrototypeOf"; "propertyIsEnumerable"; "toString"; "valueOf";
            "__proto__"; "toLocaleString" ]%string.

(** What [evaluate] can return: a boolean, or the value of the property
    [name] that the assignment inherits from [Object.prototype] (a built-in
    function, or the prototype object itself for ["__proto__"]).  The
    inherited values are objects, one for each name: truthy, equal under
    [==] to themselves only and to no boolean. *)
Inductive value :=
| VBool (b : bool)
| VInherited (name : str).

Definition truthy (v : value) : bool :=
  match v with
  | VBool b => b
  | VInherited _ => true
  end.

(** [a || b], [a && b], [!a] and [a == b] *)
Definition js_or (a b : value) : value := if truthy a then a else b.
Definition js_and (a b : value) : value := if truthy a then b else a.
Definition js_not (a : value) : value := VBool (negb (truthy a)).
Definition js_eq (a b : value) : value :=
  match a, b with
  | VBool x, VBool y => VBool (eqb x y)
  | VInherited n, VInherited m => VBool (bool_decide (n = m))
  | _, _ => VBool false
  end.

(** The leaf branch of [evaluate].  [ast in ctx] holds of the own
    properties of [ctx] and of the inherited ones; [ctx[ast]] is then the own
    boolean, or else the inherited value. *)
Definition evaluate_leaf (name : str) (ctx : gmap str bool) : value :=
  match ctx !! name with
  | Some b => VBool b
  | None =>
      if includes Object_prototype_keys name then VInherited name
      else VBool (bool_decide (name = lit "1"))
  end.

(** [evaluate(ast.args[k], ctx)] when [ast.args] has no element [k]: the
    argument is [undefined], which is not an object, is looked up in [ctx]
    under the key ["undefined"], and is not equal to ['1']. *)
Definition evaluate_undefined (ctx : gmap str bool) : value :=
  evaluate_leaf (lit "undefined") ctx.

Fixpoint evaluate (ast : ast) (ctx : gmap str bool) : value :=
  match ast with
  | Node op args =>
      let arg0 := match args with
                  | a :: _ => evaluate a ctx
                  | _ => evaluate_undefined ctx
                  end in
      let arg1 := match args with
                  | _ :: a :: _ => evaluate a ctx
                  | _ => evaluate_undefined ctx
                  end in
      if bool_decide (op = [c_or]) then js_or arg0 arg1
      else if bool_decide (op = [c_and]) then js_and arg0 arg1
      else if bool_decide (op = [c_not]) then js_not arg0
      else if bool_decide (op = [c_implies]) then js_or (js_not arg0) arg1
      else if bool_decide (op = [c_iff]) then js_eq arg0 arg1
      else if bool_decide (op = [c_converse]) then js_or (js_not arg1) arg0
      else VBool false
  | Leaf name => evaluate_leaf name ctx
  end.

(** ** Truth tables *)

Fixpoint find_symbols (ast : ast) : list str :=
  match ast with
  | Node _ args => flat_map find_symbols args
  | Leaf name =>
      if negb (bool_decide (name = lit "1")) && negb (bool_decide (name = lit "0"))
      then [name]
      else []
  end.

(** [arr.indexOf(sym)], for a [sym] that occurs in [arr]. *)
Fixpoint indexOf (arr : list str) (sym : str) : option nat :=
  match arr with
  | [] => None
  | x :: rest => if bool_decide (x = sym) then Some O else S <$> indexOf rest sym
  end.

(** [arr.filter((sym, i, arr) => arr.indexOf(sym) == i)] *)
Definition first_occurrences (arr : list str) : list str :=
  map snd
    (List.filter (fun p => bool_decide (indexOf arr p.2 = Some p.1))
       (imap (fun i sym => (i, sym)) arr)).

Record row := { row_inputs : list bool; output : value }.
Record table := { inputs : list str; body : list row }.

(** [(i & (1 << bit)) != 0]; [bit] is at most 3 and [i] at most 15 here,
    far from the 32-bit wrap-around of the two operators. *)
Definition input_bit (i : Z) (bit : nat) : bool :=
  negb (Z.land i (Z.shiftl 1 (Z.of_nat bit)) =? 0)%Z.

(** [context[sym] = input] on a plain object whose own properties are
    booleans.  For ["__proto__"] the assignment reaches the accessor
    inherited from [Object.prototype], whose setter ignores a boolean: no
    own property is made.  Every other name becomes an own property (the
    other inherited properties are writable data properties). *)
Definition js_set (context : gmap str bool) (sym : str) (input : bool)
  : gmap str bool :=
  if bool_decide (sym = lit "__proto__") then context
  else <[sym := input]> context.

(** The body of the [for] loop of [create_truth_table] at counter [i]. *)
Definition table_row (ast : ast) (symbols : list str) (i : Z) : row :=
  let '(context, inputs) :=
    fold_left (fun st p =>
                 let input := input_bit i p.1 in
                 (js_set st.1 p.2 input, st.2 ++ [input]))
              (imap (fun bit sym => (bit, sym)) symbols)
              ((∅ : gmap str bool), []) in
  {| row_inputs := inputs; output := evaluate ast context |}.

Definition create_truth_table (ast : ast) : table :=
  let symbols := first_occurrences (find_symbols ast) in
  if bool_decide (length symbols = 0%nat) then
    {| inputs := [];
       body := [ {| row_inputs := []; output := evaluate ast ∅ |} ] |}
  else if bool_decide (length symbols ≤ 4)%nat then
    {| inputs := symbols;
       body := map (fun i => table_row ast symbols (Z.of_nat i))
                   (seq 0 (2 ^ length symbols)) |}
  else
    {| inputs := []; body := [] |}.

(** ** Inputs and values named in the statements *)

Definition sym_a : str := lit "a".
Definition sym_b : str := lit "b".
Definition sym_c : str := lit "c".

(** ["a ∨ b ∧ c"] and ["a ∨ (b ∧ c)"] *)
Definition text_or_and : str :=
  lit "a " ++ [c_or] ++ lit " b " ++ [c_and] ++ lit " c".
Definition text_or_paren_and : str :=
  lit "a " ++ [c_or] ++ lit " (b " ++ [c_and] ++ lit " c)".

(** ["a → b → c"] *)
Definition text_implies_chain : str :=
  lit "a " ++ [c_implies] ++ lit " b " ++ [c_implies] ++ lit " c".

(** ["∧ a"] and ["()"] *)
Definition text_and_a : str := [c_and] ++ lit " a".
Definition text_unit : str := lit "()".

(** ["a and b"], ["a ∧ b"] and ["A AND B"] *)
Definition text_a_and_b : str := lit "a and b".
Definition text_a_wedge_b : str := lit "a " ++ [c_and] ++ lit " b".
Definition text_A_AND_B : str := lit "A AND B".

(** ["a ∧ b ∧ c"] *)
Definition text_and_and : str :=
  lit "a " ++ [c_and] ++ lit " b " ++ [c_and] ++ lit " c".

(** ["¬"], ["))(a"], ["((a))(b)"] and ["a b"] *)
Definition text_not : str := [c_not].
Definition text_close_close_open_a : str := lit "))(a".
Definition text_balanced : str := lit "((a))(b)".
Definition text_a_b : str := lit "a b".

(** [{a: true, b: false, c: true}] *)
Definition ctx_tft : gmap str bool :=
  <[sym_a := true]> (<[sym_b := false]> (<[sym_c := true]> ∅)).

(** [{a: true, b: true}] *)
Definition ctx_a_b : gmap str bool :=
  <[sym_a := true]> (<[sym_b := true]> ∅).

(** [{a: true, b: false, A: true, B: false}] *)
Definition ctx_both_cases : gmap str bool :=
  <[sym_a := true]> (<[sym_b := false]>
    (<[lit "A" := true]> (<[lit "B" := false]> ∅))).

(** ** Predicates used by the statements *)

(** Some two neighbours of the sequence are both identifier tokens. *)
Fixpoint adjacent_identifiers (tokens : list token) : bool :=
  match tokens with
  | [] => false
  | t1 :: rest =>
      match rest with
      | [] => false
      | t2 :: _ => (is_str t1 && is_str t2) || adjacent_identifiers rest
      end
  end.

(** The five messages of [reformat]. *)
Definition reformat_errors : list error :=
  [ Thrown "empty expression";
    Thrown "operator has no operand";
    Thrown "malformed unary operator";
    Thrown "malformed binary operator";
    Thrown "malformed expression" ].

(** The six connectives. *)
Definition connectives : list str :=
  [[c_or]; [c_and]; [c_not]; [c_implies]; [c_iff]; [c_converse]].

(** ** Rendering *)

(** [form_rpn]: the renderings of the operands, then the operator, joined
    with the empty separator; a leaf is returned as it is. *)
Fixpoint form_rpn (tree : ast) : str :=
  match tree with
  | Node op args => concat (map form_rpn args ++ [op])
  | Leaf name => name
  end.

(** ** Further predicates used by the statements *)

(** A character that extends an identifier in [tokenise]: neither a base
    operator nor white space. *)
Definition is_identifier_char (c : char) : bool :=
  negb (includes BASE_OPERATORS c) && negb (is_space c).

(** [Object.keys(EXTRA_OPERATORS)] *)
Definition alias_keys : list str := map fst EXTRA_OPERATORS.

(** A text that [tokenise] returns as one identifier token: a non-empty run
    of identifier characters whose lower case is no alias. *)
Definition identifier (s : str) : bool :=
  negb (bool_decide (s = []))
  && forallb is_identifier_char s
  && negb (includes alias_keys (toLowerCase s)).

(** The tokens [tokenise] can return: an operator token of one base
    operator character, or an identifier. *)
Definition token_ok (t : token) : bool :=
  match t with
  | Op [c] => includes BASE_OPERATORS c
  | Op _ => false
  | Sp => false
  | Str s => identifier s
  end.

Definition not_sp (tok : token) : bool := negb (is_sp tok).

(** The tokens of the scanning loop: as [token_ok], with ['sp'] tokens and
    before aliases are told from identifiers. *)
Definition scan_ok (t : token) : bool :=
  match t with
  | Op [c] => includes BASE_OPERATORS c
  | Op _ => false
  | Sp => true
  | Str s => negb (bool_decide (s = [])) && forallb is_identifier_char s
  end.

Definition is_paren (t : token) : bool :=
  match t with
  | Op s => bool_decide (s = [c_open]) || bool_decide (s = [c_close])
  | _ => false
  end.

(** The body of [parse] after [tokenise]. *)
Definition parse_tokens (tokens : list token) : result ast :=
  tree <- split_by_parens tokens ;;
  tree <- combine_unary tree ;;
  tree <- process_operators tree [[c_iff]] ;;
  tree <- process_operators tree [[c_converse]; [c_implies]] ;;
  tree <- process_operators tree [[c_or]] ;;
  tree <- process_operators tree [[c_and]] ;;
  reformat (Arr tree).

(** The elements of a structure that are not arrays, from left to right. *)
Fixpoint leaves (n : node) : list node :=
  match n with
  | Arr l => flat_map leaves l
  | _ => [n]
  end.

Definition leaves_of (tree : list node) : list node := flat_map leaves tree.

Definition is_defined (n : node) : bool :=
  match n with
  | Undefined => false
  | _ => true
  end.

(** What [split_by_parens] stores of a token. *)
Definition kept (token : token) : list node :=
  if is_paren token then [] else [Tok token].

(** The callback of the [forEach] of [combine_unary], with [rec] for the
    recursive call; [combine_unary_node] folds it over the array (lemma
    [combine_unary_node_fold]). *)
Definition unary_step (rec : node -> result node) (elem : node)
    (acc : result (list node)) : result (list node) :=
  result <- acc ;;
  match elem with
  | Arr _ => c <- rec elem ;; Ok (c :: result)
  | Tok (Op s) =>
      if bool_decide (s = [c_not])
      then Ok (Arr [elem; (shift result).1] :: (shift result).2)
      else Ok (elem :: result)
  | Tok _ => Ok (elem :: result)
  | Undefined => Err TypeError
  end.

(** The last token of the structure is a negation, and it is the last
    element of the array that holds it. *)
Inductive ends_with_not : list node -> Prop :=
| ends_here front : ends_with_not (front ++ [Tok (Op [c_not])])
| ends_deep front inner :
    ends_with_not inner -> ends_with_not (front ++ [Arr inner]).

(** The five binary connectives, and the pass of [parse] that splits at
    each: 0 for the first pass (loosest) to 3 for the last (tightest). *)
Definition binary_connectives : list char :=
  [c_or; c_and; c_implies; c_iff; c_converse].


(** The operators and the leaf names of a syntax tree. *)
Fixpoint operators (tree : ast) : list str :=
  match tree with
  | Node op args => op :: flat_map operators args
  | Leaf _ => []
  end.

Fixpoint leaf_names (tree : ast) : list str :=
  match tree with
  | Node _ args => flat_map leaf_names args
  | Leaf name => [name]
  end.

(** Every operator node has one or two operands. *)
Fixpoint arity_ok (tree : ast) : bool :=
  match tree with
  | Node _ args =>
      (bool_decide (length args = 1) || bool_decide (length args = 2))
      && forallb arity_ok args
  | Leaf _ => true
  end.

(** The tree [t] is made of tokens of [n], and each of its operator nodes
    has one or two operands. *)
Definition made_of (n : node) (t : ast) : Prop :=
  arity_ok t = true
  ∧ Forall (fun op => Tok (Op op) ∈ leaves n) (operators t)
  ∧ Forall (fun name => Tok (Str name) ∈ leaves n) (leaf_names t).

(** * Properties *)

(** ** Traces of the stages *)

Example tokenise_or_paren_and :
  tokenise text_or_paren_and =
  [Str sym_a; Op [c_or]; Op [c_open]; Str sym_b; Op [c_and]; Str sym_c;
   Op [c_close]].
Proof. by vm_compute. Qed.

Example split_or_paren_and :
  split_by_parens (tokenise text_or_paren_and) =
  Ok [Tok (Str sym_a); Tok (Op [c_or]);
      Arr [Tok (Str sym_b); Tok (Op [c_and]); Tok (Str sym_c)]].
Proof. by vm_compute. Qed.

(** ["(a)(b)"]: the second opening parenthesis descends into the group of
    the first, and the last closing parenthesis wraps the whole. *)
Example split_two_groups :
  split_by_parens (tokenise (lit "(a)(b)")) =
  Ok [Arr [Tok (Str sym_a); Tok (Str sym_b)]].
Proof. by vm_compute. Qed.

(** ["¬a ∨ b"] after fusion, and after the four passes. *)
Example combine_not_a_or_b :
  (t <- split_by_parens (tokenise ([c_not] ++ lit "a " ++ [c_or] ++ lit " b")) ;;
   combine_unary t) =
  Ok [Arr [Tok (Op [c_not]); Tok (Str sym_a)]; Tok (Op [c_or]); Tok (Str sym_b)].
Proof. by vm_compute. Qed.

Example parse_not_a_or_b :
  parse ([c_not] ++ lit "a " ++ [c_or] ++ lit " b") =
  Ok (Node [c_or] [Node [c_not] [Leaf sym_a]; Leaf sym_b]).
Proof. by vm_compute. Qed.

(** ** The tokeniser *)

Section Tokeniser.

Lemma adjacent_identifiers_snoc tokens tok :
  adjacent_identifiers (tokens ++ [tok]) =
  adjacent_identifiers tokens
  || (from_option is_str false (last tokens) && is_str tok).
Proof.
  induction tokens as [|t1 [|t2 rest] IH]; simpl in *.
  - reflexivity.
  - destruct (is_str t1), (is_str tok); reflexivity.
  - rewrite IH. destruct (is_str t1 && is_str t2); simpl; [reflexivity|].
    reflexivity.
Qed.

Lemma tokens_snoc_inv (tokens : list token) :
  tokens = [] ∨ ∃ front t, tokens = front ++ [t].
Proof.
  induction tokens as [|t tokens _] using rev_ind; [by left|].
  right. by exists tokens, t.
Qed.

Lemma tokenise_step_no_adjacent tokens c :
  adjacent_identifiers tokens = false →
  adjacent_identifiers (tokenise_step tokens c) = false.
Proof.
  intros Hinv. unfold tokenise_step.
  destruct (includes BASE_OPERATORS c).
  { rewrite adjacent_identifiers_snoc, Hinv. simpl. by rewrite andb_false_r. }
  destruct (tokens_snoc_inv tokens) as [->|(front & t & ->)].
  { simpl. by destruct (is_space c). }
  rewrite last_snoc.
  rewrite adjacent_identifiers_snoc in Hinv.
  apply orb_false_iff in Hinv as [Hfront Hlast].
  destruct (is_space c), t;
    rewrite ?removelast_last, ?adjacent_identifiers_snoc, ?last_snoc, ?Hfront;
    simpl in *; rewrite ?andb_false_r, ?andb_true_r, ?orb_false_r in *;
    done.
Qed.

Lemma fold_tokenise_step_no_adjacent input tokens :
  adjacent_identifiers tokens = false →
  adjacent_identifiers (fold_left tokenise_step input tokens) = false.
Proof.
  revert tokens. induction input as [|c input IH]; intros tokens Hinv.
  - exact Hinv.
  - simpl. apply IH. by apply tokenise_step_no_adjacent.
Qed.

(** The final [map] never turns a token into an identifier. *)
Lemma is_str_resolve_alias tok :
  is_str (resolve_alias tok) = true → is_str tok = true.
Proof.
  destruct tok; simpl; try done.
Qed.

Lemma adjacent_identifiers_resolve tokens :
  adjacent_identifiers tokens = false →
  adjacent_identifiers (map resolve_alias tokens) = false.
Proof.
  induction tokens as [|t1 [|t2 rest] IH]; try done.
  intros H. apply orb_false_iff in H as [H12 Hrest].
  change (map resolve_alias (t1 :: t2 :: rest))
    with (resolve_alias t1 :: map resolve_alias (t2 :: rest)).
  specialize (IH Hrest). simpl in IH |- *. rewrite IH, orb_false_r.
  destruct (is_str (resolve_alias t1)) eqn:E1; [|done].
  destruct (is_str (resolve_alias t2)) eqn:E2; [|done].
  apply is_str_resolve_alias in E1, E2. by rewrite E1, E2 in H12.
Qed.

(** Without white space the loop records no ['sp'] token. *)
Lemma tokenise_step_no_sp tokens c :
  is_space c = false →
  forallb (fun tok => negb (is_sp tok)) tokens = true →
  forallb (fun tok => negb (is_sp tok)) (tokenise_step tokens c) = true.
Proof.
  intros Hc Hinv. unfold tokenise_step. rewrite Hc.
  destruct (includes BASE_OPERATORS c).
  { rewrite forallb_app, Hinv. reflexivity. }
  destruct (tokens_snoc_inv tokens) as [->|(front & t & ->)]; [done|].
  rewrite last_snoc. rewrite forallb_app in Hinv.
  apply andb_true_iff in Hinv as [Hfront Ht].
  destruct t; rewrite ?removelast_last, !forallb_app, ?Hfront; try done.
Qed.

Lemma fold_tokenise_step_no_sp input tokens :
  forallb (fun c => negb (is_space c)) input = true →
  forallb (fun tok => negb (is_sp tok)) tokens = true →
  forallb (fun tok => negb (is_sp tok)) (fold_left tokenise_step input tokens)
  = true.
Proof.
  revert tokens. induction input as [|c input IH]; intros tokens Hin Hinv.
  - exact Hinv.
  - simpl in Hin. apply andb_true_iff in Hin as [Hc Hin].
    simpl. apply IH; [done|]. apply tokenise_step_no_sp; [|done].
    by destruct (is_space c).
Qed.

Lemma filter_no_sp (tokens : list token) :
  forallb (fun tok => negb (is_sp tok)) tokens = true →
  filter (fun tok => is_sp tok = false) tokens = tokens.
Proof.
  induction tokens as [|t tokens IH]; [done|].
  simpl. intros H. apply andb_true_iff in H as [Ht H].
  rewrite filter_cons. destruct (decide (is_sp t = false)) as [_|Hn].
  - by rewrite IH.
  - destruct (is_sp t); done.
Qed.

(** C9, as stated, fails: ["a b"] is tokenised into the two identifier
    tokens [a] and [b], which are neighbours once the ['sp'] token between
    them is filtered out. *)
Lemma adjacent_identifiers_a_b :
  tokenise_scan text_a_b = [Str sym_a; Sp; Str sym_b]
  ∧ tokenise text_a_b = [Str sym_a; Str sym_b]
  ∧ adjacent_identifiers (tokenise text_a_b) = true.
Proof. repeat split; by vm_compute. Qed.

End Tokeniser.

(** ** Grouping, fusion, splitting and reformatting: which failures *)

(** Closes a goal [Err e0 = Err e → e ∈ reformat_errors ∨ e = TypeError] for
    a given [e0]. *)
Ltac thrown :=
  let Heq := fresh in
  intros Heq; inversion Heq; subst;
  first [ by right
        | left; unfold reformat_errors;
          repeat first [apply list_elem_of_here | apply list_elem_of_further] ].

Section Failures.

Lemma bind_Err {A B} (r : result A) (k : A → result B) e :
  bind r k = Err e → r = Err e ∨ ∃ v, r = Ok v ∧ k v = Err e.
Proof. destruct r as [v|e']; simpl; intros H; [right; by exists v | left; congruence]. Qed.

Lemma push_with_depth_Err tree obj depth e :
  push_with_depth tree obj depth = Err e →
  e = Thrown "cannot push with negative depth" ∧ (depth < 0)%Z.
Proof.
  unfold push_with_depth.
  destruct (depth =? 0)%Z; [done|].
  destruct (depth <? 0)%Z eqn:E; [|done].
  intros [= <-]. split; [done|lia].
Qed.

(** [push_with_depth] satisfies the recursive equation of the source. *)
Lemma push_with_depth_unfold tree obj depth :
  push_with_depth tree obj depth =
  if (depth =? 0)%Z then Ok (tree ++ [obj])
  else if (depth <? 0)%Z then Err (Thrown "cannot push with negative depth")
  else
    match last tree with
    | Some (Arr inner) =>
        inner' <- push_with_depth inner obj (depth - 1) ;;
        Ok (removelast tree ++ [Arr inner'])
    | _ =>
        inner' <- push_with_depth [] obj (depth - 1) ;;
        Ok (tree ++ [Arr inner'])
    end.
Proof.
  unfold push_with_depth.
  destruct (depth =? 0)%Z eqn:E0; [done|].
  destruct (depth <? 0)%Z eqn:E1; [done|].
  replace (Z.to_nat depth) with (S (Z.to_nat (depth - 1))) by lia.
  replace (depth - 1 <? 0)%Z with false by lia.
  destruct (depth - 1 =? 0)%Z eqn:E2.
  - replace (Z.to_nat (depth - 1)) with O by lia. simpl.
    by destruct (last tree) as [[| |]|].
  - simpl. by destruct (last tree) as [[| |]|].
Qed.

Lemma split_step_Err st token e :
  split_step st token = Err e →
  e = Thrown "cannot push with negative depth".
Proof.
  destruct st as [tree depth]. unfold split_step.
  destruct token as [s| |s];
    repeat case_bool_decide; try done;
    try (by destruct (_ <? _)%Z);
    intros [Hp|(v & _ & Hp)]%bind_Err; try done;
    by apply push_with_depth_Err in Hp as [-> _].
Qed.

Lemma split_loop_Err tokens st e :
  split_loop tokens st = Err e →
  e = Thrown "cannot push with negative depth".
Proof.
  revert st. induction tokens as [|token rest IH]; intros st; [done|].
  simpl. intros [H|(st' & _ & H)]%bind_Err.
  - by apply split_step_Err in H.
  - by apply IH in H.
Qed.

Lemma split_by_parens_Err tokens e :
  split_by_parens tokens = Err e →
  e = Thrown "cannot push with negative depth".
Proof.
  unfold split_by_parens. intros [H|(st & _ & H)]%bind_Err; [|done].
  by apply split_loop_Err in H.
Qed.

(** Where the depth counter does stay at 0 or above: every step other
    than an opening parenthesis keeps it there, so a token sequence
    without opening parenthesis is always grouped (unmatched closing
    parentheses are absorbed by wrapping). *)
Lemma split_step_without_open st token :
  token ≠ Op [c_open] → (0 ≤ st.2)%Z →
  ∃ st', split_step st token = Ok st' ∧ (0 ≤ st'.2)%Z.
Proof.
  destruct st as [tree depth]. simpl. intros Hne Hd.
  assert (Hpush : ∀ obj, ∃ tree',
             push_with_depth tree obj depth = Ok tree').
  { intros obj. unfold push_with_depth.
    destruct (depth =? 0)%Z; [by eexists|].
    destruct (depth <? 0)%Z eqn:E; [lia|by eexists]. }
  destruct token as [s| |s]; simpl.
  - case_bool_decide as Ho; [by subst|].
    case_bool_decide as Hc.
    + destruct (depth - 1 <? 0)%Z eqn:E; eexists; (split; [done|]); simpl; lia.
    + destruct (Hpush (Tok (Op s))) as [tree' ->]. by eexists.
  - destruct (Hpush (Tok Sp)) as [tree' ->]. by eexists.
  - destruct (Hpush (Tok (Str s))) as [tree' ->]. by eexists.
Qed.

Lemma split_by_parens_without_open tokens :
  Forall (λ token, token ≠ Op [c_open]) tokens →
  ∃ tree, split_by_parens tokens = Ok tree.
Proof.
  unfold split_by_parens.
  assert (H : ∀ st, (0 ≤ st.2)%Z →
            Forall (λ token, token ≠ Op [c_open]) tokens →
            ∃ st', split_loop tokens st = Ok st').
  { induction tokens as [|token rest IH]; intros st Hst Hall; [by eexists|].
    apply Forall_cons in Hall as [Hne Hall]. simpl.
    destruct (split_step_without_open st token Hne Hst) as (st' & -> & Hst').
    simpl. by apply IH. }
  intros Hall. destruct (H ([], 0%Z)) as [st' ->]; [done|done|].
  by eexists.
Qed.

(** *** Enough fuel *)

Lemma node_weight_pos n : 1 ≤ node_weight n.
Proof. destruct n; simpl; lia. Qed.

Lemma weight_lookup_Arr tree i l :
  tree !! i = Some (Arr l) → weight l < weight tree.
Proof.
  revert i. induction tree as [|x tree IH]; intros [|i]; simpl; try done.
  - intros [= ->]. unfold weight. simpl. lia.
  - intros H%IH. unfold weight in *. simpl. lia.
Qed.

Lemma weight_take tree i :
  i < length tree → weight (take i tree) < weight tree.
Proof.
  revert i. induction tree as [|x tree IH]; intros i; simpl; [lia|].
  pose proof (node_weight_pos x).
  destruct i as [|i]; unfold weight in *; simpl.
  - lia.
  - intros Hi. specialize (IH i). lia.
Qed.

Lemma process_loop_Err rec tree ops i rhs e :
  (∀ t, weight t < weight tree → rec t = Err e → e = TypeError) →
  process_loop rec tree ops i rhs = Err e → e = TypeError.
Proof.
  intros Hrec. revert rhs. induction i as [|i IH]; intros rhs; [done|].
  simpl. destruct (tree !! i) as [[[s| |s]|l|]|] eqn:Hi;
    try (by intros [= <-]); try (by apply IH).
  - destruct (includes ops s); [|by apply IH].
    intros [H|(v & _ & H)]%bind_Err; [|done].
    apply Hrec in H; [done|].
    apply weight_take. by eapply lookup_lt_Some.
  - intros [H|(v & _ & H)]%bind_Err; [|by apply IH in H].
    apply Hrec in H; [done|]. by eapply weight_lookup_Arr.
Qed.

(** With more fuel than [weight tree], the only failure of
    [process_operators_fuel] is the [TypeError] of the source. *)
Lemma process_operators_fuel_error fuel tree ops e :
  weight tree < fuel →
  process_operators_fuel fuel tree ops = Err e → e = TypeError.
Proof.
  revert tree. induction fuel as [|fuel IH]; intros tree Hfuel; [lia|].
  simpl. apply process_loop_Err.
  intros t Ht. apply IH. lia.
Qed.

Lemma process_loop_ext rec1 rec2 tree ops i rhs :
  (∀ t, weight t < weight tree → rec1 t = rec2 t) →
  process_loop rec1 tree ops i rhs = process_loop rec2 tree ops i rhs.
Proof.
  intros Hrec. revert rhs. induction i as [|i IH]; intros rhs; [done|].
  simpl. destruct (tree !! i) as [[[s| |s]|l|]|] eqn:Hi; try done.
  - destruct (includes ops s); [|done].
    rewrite Hrec; [done|]. apply weight_take. by eapply lookup_lt_Some.
  - rewrite Hrec by (by eapply weight_lookup_Arr).
    destruct (rec2 l); simpl; [apply IH|done].
Qed.

(** Any two sufficient amounts of fuel give the same result. *)
Lemma process_operators_fuel_stable fuel1 fuel2 tree ops :
  weight tree < fuel1 → weight tree < fuel2 →
  process_operators_fuel fuel1 tree ops = process_operators_fuel fuel2 tree ops.
Proof.
  revert fuel2 tree.
  induction fuel1 as [|fuel1 IH]; intros [|fuel2] tree H1 H2; try lia.
  simpl. apply process_loop_ext. intros t Ht. apply IH; lia.
Qed.

(** [process_operators] satisfies the recursive equation of the source:
    its body is the loop, in which each recursive call is
    [process_operators] again. *)
Lemma process_operators_unfold tree ops :
  process_operators tree ops =
  process_loop (fun t => process_operators t ops) tree ops (length tree) [].
Proof.
  unfold process_operators at 1. simpl. apply process_loop_ext.
  intros t Ht. apply process_operators_fuel_stable; lia.
Qed.

Lemma process_operators_Err tree ops e :
  process_operators tree ops = Err e → e = TypeError.
Proof. apply process_operators_fuel_error. lia. Qed.

(** *** Induction on nested arrays *)

Lemma node_nested_ind (P : node → Prop) :
  (∀ t, P (Tok t)) → P Undefined → (∀ l, Forall P l → P (Arr l)) →
  ∀ n, P n.
Proof.
  intros HT HU HA.
  fix IH 1. intros [t|l|]; [apply HT| |apply HU].
  apply HA. induction l as [|x l IHl]; constructor; [apply IH|apply IHl].
Qed.

Lemma combine_unary_node_Err n e :
  combine_unary_node n = Err e → e = TypeError.
Proof.
  induction n as [t|  |tree IHtree] using node_nested_ind; try done.
  simpl. intros [H|(r & _ & H)]%bind_Err; [|done].
  induction IHtree as [|x tree Hx _ IH]; [done|].
  simpl in H. apply bind_Err in H as [H|(result & _ & H)]; [by apply IH|].
  destruct x as [[s| |s]|l|]; try done.
  - by case_bool_decide.
  - apply bind_Err in H as [H|(c & _ & H)]; [by apply Hx|done].
  - by injection H as <-.
Qed.

(** On a nested array [combine_unary_node] is [combine_unary]. *)
Lemma combine_unary_node_Arr tree :
  combine_unary_node (Arr tree) = (r <- combine_unary tree ;; Ok (Arr r)).
Proof.
  unfold combine_unary. simpl.
  by destruct (fold_right _ _ tree).
Qed.

Lemma combine_unary_Err tree e :
  combine_unary tree = Err e → e = TypeError.
Proof.
  unfold combine_unary. intros [H|(r & _ & H)]%bind_Err.
  - by apply combine_unary_node_Err in H.
  - destruct r; try done; by injection H as <-.
Qed.

Lemma not_operator_Err x e : not_operator x = Err e → e = TypeError.
Proof. destruct x; try done. by intros [= <-]. Qed.

Lemma bare_operator_Err x e : bare_operator x = Err e → e = TypeError.
Proof. destruct x; try done. by intros [= <-]. Qed.

Lemma reformat_Err tree e :
  reformat tree = Err e → e ∈ reformat_errors ∨ e = TypeError.
Proof.
  induction tree as [[s| |s]|  |tree IHtree] using node_nested_ind;
    try (simpl; by thrown).
  destruct tree as [|x0 [|x1 [|x2 [|x3 tree]]]]; try (simpl; by thrown).
  - apply Forall_cons in IHtree as [H0 _].
    destruct x0 as [[s| |s]|l|]; try done; simpl; by thrown.
  - apply Forall_cons in IHtree as [_ [H1 _]%Forall_cons].
    simpl.
    intros [H|(bad0 & _ & H)]%bind_Err; [right; by eapply not_operator_Err|].
    apply bind_Err in H as [H|(bad1 & _ & H)].
    { destruct bad0; [done|]. right; by eapply bare_operator_Err. }
    destruct bad1; [revert H; by thrown|].
    apply bind_Err in H as [H|(a & _ & H)]; [by apply H1|done].
  - apply Forall_cons in IHtree as [H0 [_ [H2 _]%Forall_cons]%Forall_cons].
    simpl.
    intros [H|(bad1 & _ & H)]%bind_Err; [right; by eapply not_operator_Err|].
    apply bind_Err in H as [H|(bad0 & _ & H)].
    { destruct bad1; [done|]. right; by eapply bare_operator_Err. }
    apply bind_Err in H as [H|(bad2 & _ & H)].
    { destruct bad0; [done|]. right; by eapply bare_operator_Err. }
    destruct bad2; [revert H; by thrown|].
    apply bind_Err in H as [H|(a & _ & H)]; [by apply H0|].
    apply bind_Err in H as [H|(b & _ & H)]; [by apply H2|done].
Qed.

(** Every failure of [parse] is one of the five messages of [reformat],
    the message of [push_with_depth], or a [TypeError]; in particular
    [parse] never runs out of fuel. *)
Lemma parse_Err input e :
  parse input = Err e →
  e ∈ reformat_errors
  ∨ e = Thrown "cannot push with negative depth"
  ∨ e = TypeError.
Proof.
  unfold parse.
  intros [H|(t0 & _ & H)]%bind_Err;
    [right; left; by eapply split_by_parens_Err|].
  apply bind_Err in H as [H|(t1 & _ & H)];
    [right; right; by eapply combine_unary_Err|].
  do 4 (apply bind_Err in H as [H|(? & _ & H)];
        [right; right; by eapply process_operators_Err|]).
  apply reformat_Err in H as [H|H]; auto.
Qed.

(** C8: the code at ["))(a"] and at ["((a))(b)"].  After the tokens
    [) ) (] the local [tree] is the empty array and [depth] is -1: each
    closing parenthesis wrapped the structure once, and the descent loop
    of the opening parenthesis unwrapped it twice, decrementing [depth]
    below its value before the parenthesis.  The next token reaches
    [push_with_depth] with that depth, which throws. *)
Theorem push_with_negative_depth_is_reached :
  tokenise text_close_close_open_a =
    [Op [c_close]; Op [c_close]; Op [c_open]; Str sym_a]
  ∧ split_loop [Op [c_close]; Op [c_close]; Op [c_open]] ([], 0%Z)
    = Ok ([], (-1)%Z)
  ∧ split_by_parens (tokenise text_close_close_open_a)
    = Err (Thrown "cannot push with negative depth")
  ∧ split_by_parens (tokenise text_balanced)
    = Err (Thrown "cannot push with negative depth").
Proof. repeat split; by vm_compute. Qed.

(** C3: the code at ["¬"] and at ["))(a"].  [combine_unary] pairs the
    negation with the result of [shift] on an empty array, [undefined];
    the first pass of [process_operators] reads [.type] of it.  Neither
    this failure nor the one of [push_with_depth] is among the five
    messages of [reformat]. *)
Theorem parse_failures_outside_reformat :
  combine_unary [Tok (Op [c_not])] = Ok [Arr [Tok (Op [c_not]); Undefined]]
  ∧ parse text_not = Err TypeError
  ∧ (TypeError ∉ reformat_errors)
  ∧ parse text_close_close_open_a
    = Err (Thrown "cannot push with negative depth")
  ∧ (Thrown "cannot push with negative depth" ∉ reformat_errors).
Proof.
  split; [by vm_compute|]. split; [by vm_compute|].
  split.
  { unfold reformat_errors; rewrite !not_elem_of_cons.
    repeat split; try discriminate. apply not_elem_of_nil. }
  split; [by vm_compute|].
  unfold reformat_errors; rewrite !not_elem_of_cons.
  repeat split; try discriminate. apply not_elem_of_nil.
Qed.

End Failures.

(** ** Parsing and evaluating the examples *)

Section Examples.

Lemma evaluate_binary op a b ctx :
  evaluate (Node op [a; b]) ctx =
  if bool_decide (op = [c_or]) then js_or (evaluate a ctx) (evaluate b ctx)
  else if bool_decide (op = [c_and])
       then js_and (evaluate a ctx) (evaluate b ctx)
  else if bool_decide (op = [c_not]) then js_not (evaluate a ctx)
  else if bool_decide (op = [c_implies])
       then js_or (js_not (evaluate a ctx)) (evaluate b ctx)
  else if bool_decide (op = [c_iff])
       then js_eq (evaluate a ctx) (evaluate b ctx)
  else if bool_decide (op = [c_converse])
       then js_or (js_not (evaluate b ctx)) (evaluate a ctx)
  else VBool false.
Proof. reflexivity. Qed.

(** C1. For every assignment, the tree of ["a ∨ b ∧ c"] and the tree of
    ["a ∨ (b ∧ c)"] evaluate to the same value: both texts parse to the
    OR node over the leaf [a] and the AND node over the leaves [b] and
    [c], whose value is [a || (b && c)]. *)
Theorem precedence_and_binds_tighter_than_or :
  ∃ t1 t2,
    parse text_or_and = Ok t1
    ∧ parse text_or_paren_and = Ok t2
    ∧ (∀ ctx, evaluate t1 ctx = evaluate t2 ctx)
    ∧ t1 = Node [c_or] [Leaf sym_a; Node [c_and] [Leaf sym_b; Leaf sym_c]]
    ∧ (∀ ctx, evaluate t1 ctx =
              js_or (evaluate_leaf sym_a ctx)
                    (js_and (evaluate_leaf sym_b ctx) (evaluate_leaf sym_c ctx))).
Proof.
  exists (Node [c_or] [Leaf sym_a; Node [c_and] [Leaf sym_b; Leaf sym_c]]).
  exists (Node [c_or] [Leaf sym_a; Node [c_and] [Leaf sym_b; Leaf sym_c]]).
  split; [by vm_compute|]. split; [by vm_compute|].
  split; [done|]. split; [done|].
  intros ctx. by rewrite !evaluate_binary.
Qed.

(** C2. ["a → b → c"] parses to the left-associative tree: the IMPLIES
    node whose left operand is the IMPLIES node over the leaves [a] and
    [b] and whose right operand is the leaf [c]; under
    [{a: true, b: false, c: true}] that tree evaluates to [true]. *)
Theorem implies_chain_left_associative :
  parse text_implies_chain =
    Ok (Node [c_implies]
          [Node [c_implies] [Leaf sym_a; Leaf sym_b]; Leaf sym_c])
  ∧ evaluate (Node [c_implies]
                [Node [c_implies] [Leaf sym_a; Leaf sym_b]; Leaf sym_c])
             ctx_tft = VBool true.
Proof. split; by vm_compute. Qed.

(** C4, as stated, fails: the failure of ["∧ a"] is not "malformed binary
    operator". *)
Lemma and_a_is_not_malformed_binary :
  parse text_and_a ≠ Err (Thrown "malformed binary operator").
Proof. by vm_compute. Qed.

(** C4, amended. ["∧ a"] fails with "empty expression": the splitter turns
    the missing left operand into an empty group, [[[], ∧, [a]]], which
    passes the shape test of the binary case and is rejected when its
    first operand is reformatted.  ["()"] fails with "empty expression". *)
Theorem missing_left_operand_is_empty_expression :
  (t0 <- split_by_parens (tokenise text_and_a) ;;
   t1 <- combine_unary t0 ;;
   t2 <- process_operators t1 [[c_iff]] ;;
   t3 <- process_operators t2 [[c_converse]; [c_implies]] ;;
   t4 <- process_operators t3 [[c_or]] ;;
   process_operators t4 [[c_and]])
  = Ok [Arr []; Tok (Op [c_and]); Arr [Tok (Str sym_a)]]
  ∧ parse text_and_a = Err (Thrown "empty expression")
  ∧ parse text_unit = Err (Thrown "empty expression").
Proof. repeat split; by vm_compute. Qed.

(** C5, as stated, fails: under [{a: true, b: true}] the tree of
    ["a and b"] is true and the tree of ["A AND B"] is false. *)
Lemma alias_case_counterexample :
  parse text_a_and_b = Ok (Node [c_and] [Leaf sym_a; Leaf sym_b])
  ∧ parse text_A_AND_B = Ok (Node [c_and] [Leaf (lit "A"); Leaf (lit "B")])
  ∧ evaluate (Node [c_and] [Leaf sym_a; Leaf sym_b]) ctx_a_b = VBool true
  ∧ evaluate (Node [c_and] [Leaf (lit "A"); Leaf (lit "B")]) ctx_a_b
    = VBool false.
Proof. repeat split; by vm_compute. Qed.

(** C5, amended. ["a and b"] and ["a ∧ b"] parse to the same tree, the AND
    node over the leaves [a] and [b], so they evaluate alike under every
    assignment.  ["A AND B"] parses to the AND node over the leaves [A]
    and [B]: the alias is matched without regard to case, the identifiers
    keep theirs.  Its value is that of the other two under every
    assignment that treats [A] as [a] and [B] as [b]. *)
Theorem alias_equivalence (ctx : gmap str bool) :
  ∃ t1 t2 t3,
    parse text_a_and_b = Ok t1
    ∧ parse text_a_wedge_b = Ok t2
    ∧ parse text_A_AND_B = Ok t3
    ∧ t1 = Node [c_and] [Leaf sym_a; Leaf sym_b]
    ∧ t2 = Node [c_and] [Leaf sym_a; Leaf sym_b]
    ∧ t1 = t2
    ∧ evaluate t1 ctx = evaluate t2 ctx
    ∧ t3 = Node [c_and] [Leaf (lit "A"); Leaf (lit "B")]
    ∧ (ctx !! lit "A" = ctx !! sym_a → ctx !! lit "B" = ctx !! sym_b →
       evaluate t3 ctx = evaluate t1 ctx).
Proof.
  exists (Node [c_and] [Leaf sym_a; Leaf sym_b]).
  exists (Node [c_and] [Leaf sym_a; Leaf sym_b]).
  exists (Node [c_and] [Leaf (lit "A"); Leaf (lit "B")]).
  do 3 (split; [by vm_compute|]). do 5 (split; [done|]).
  intros HA HB. rewrite !evaluate_binary. simpl.
  unfold evaluate_leaf. rewrite HA, HB.
  assert (Hkeys : includes Object_prototype_keys (lit "A") = false
                  ∧ includes Object_prototype_keys (lit "B") = false
                  ∧ includes Object_prototype_keys sym_a = false
                  ∧ includes Object_prototype_keys sym_b = false)
    by (repeat split; by vm_compute).
  destruct Hkeys as (-> & -> & -> & ->).
  destruct (ctx !! sym_a), (ctx !! sym_b); done.
Qed.

Lemma alias_equivalence_witness :
  ∃ t1 t3,
    parse text_a_and_b = Ok t1
    ∧ parse text_A_AND_B = Ok t3
    ∧ evaluate t3 ctx_both_cases = evaluate t1 ctx_both_cases.
Proof.
  destruct (alias_equivalence ctx_both_cases)
    as (t1 & t2 & t3 & H1 & _ & H3 & _ & _ & _ & _ & _ & H).
  exists t1, t3. split; [exact H1|]. split; [exact H3|].
  apply H; vm_compute; reflexivity.
Defined.

(** C6: the code at ["p"], ["1"], ["0"] and at ["toString"].  Under the
    empty assignment the tree of ["p"] evaluates to false, that of ["1"] to
    true and that of ["0"] to false, and a leaf whose name is an own key of
    the assignment takes the bound value.  But [ast in ctx] also holds of
    the names the assignment inherits from [Object.prototype]: the unbound
    symbol ["toString"] evaluates to the inherited function, not to false.
    Any other unbound leaf is true exactly when its name is ["1"]. *)
Theorem leaf_evaluation :
  parse (lit "p") = Ok (Leaf (lit "p"))
  ∧ evaluate (Leaf (lit "p")) ∅ = VBool false
  ∧ parse (lit "1") = Ok (Leaf (lit "1"))
  ∧ evaluate (Leaf (lit "1")) ∅ = VBool true
  ∧ parse (lit "0") = Ok (Leaf (lit "0"))
  ∧ evaluate (Leaf (lit "0")) ∅ = VBool false
  ∧ parse (lit "toString") = Ok (Leaf (lit "toString"))
  ∧ evaluate (Leaf (lit "toString")) ∅ = VInherited (lit "toString")
  ∧ evaluate (Leaf (lit "toString")) ∅ ≠ VBool false
  ∧ ∀ name (ctx : gmap str bool),
      evaluate (Leaf name) ctx =
      match ctx !! name with
      | Some b => VBool b
      | None =>
          if includes Object_prototype_keys name then VInherited name
          else VBool (bool_decide (name = lit "1"))
      end.
Proof. repeat split; by vm_compute. Qed.

(** C7. The truth table of ["a ∧ b ∧ c"] has the header [a, b, c] and
    eight rows; row [i], for [i] from 0 to 7 in this order, has as inputs
    the bits 0, 1 and 2 of [i] (the first symbol is the least significant
    bit), and as output the conjunction of its inputs. *)
Theorem truth_table_of_triple_conjunction :
  ∃ t,
    parse text_and_and = Ok t
    ∧ inputs (create_truth_table t) = [sym_a; sym_b; sym_c]
    ∧ length (inputs (create_truth_table t)) = 3
    ∧ length (body (create_truth_table t)) = 8
    ∧ body (create_truth_table t) =
        map (fun i : nat =>
               let b0 := Z.testbit (Z.of_nat i) 0 in
               let b1 := Z.testbit (Z.of_nat i) 1 in
               let b2 := Z.testbit (Z.of_nat i) 2 in
               {| row_inputs := [b0; b1; b2];
                  output := VBool (b0 && b1 && b2) |})
            [0; 1; 2; 3; 4; 5; 6; 7]
    ∧ Forall (fun r => output r = VBool (forallb id (row_inputs r)))
             (body (create_truth_table t)).
Proof.
  exists (Node [c_and] [Node [c_and] [Leaf sym_a; Leaf sym_b]; Leaf sym_c]).
  do 5 (split; [by vm_compute|]).
  replace (body _) with
    (map (fun i : nat =>
               let b0 := Z.testbit (Z.of_nat i) 0 in
               let b1 := Z.testbit (Z.of_nat i) 1 in
               let b2 := Z.testbit (Z.of_nat i) 2 in
               {| row_inputs := [b0; b1; b2];
                  output := VBool (b0 && b1 && b2) |})
            [0; 1; 2; 3; 4; 5; 6; 7]) by (by vm_compute).
  repeat constructor.
Qed.

(** C10. On an operator node whose operator is not one of the six
    connectives, [evaluate] returns false, whatever the operands and the
    assignment. *)
Theorem evaluate_unknown_operator (op : str) (args : list ast)
    (ctx : gmap str bool) :
  op ∉ connectives → evaluate (Node op args) ctx = VBool false.
Proof.
  intros Hop. unfold connectives in Hop.
  rewrite !not_elem_of_cons in Hop.
  destruct Hop as (? & ? & ? & ? & ? & ? & _).
  simpl. by rewrite !bool_decide_eq_false_2.
Qed.

Lemma evaluate_unknown_operator_witness :
  (lit "xor" ∉ connectives)
  ∧ evaluate (Node (lit "xor") [Leaf sym_a; Leaf sym_b]) ctx_a_b
    = VBool false.
Proof.
  assert (H : lit "xor" ∉ connectives)
    by (apply (bool_decide_unpack _); vm_compute; exact I).
  split; [exact H|]. exact (evaluate_unknown_operator _ _ _ H).
Defined.

End Examples.

(** ** The tokeniser: how texts compose *)

Section TokeniserStructure.

Lemma tokenise_step_nonempty tokens c : tokenise_step tokens c ≠ [].
Proof.
  assert (Hsnoc : ∀ (l : list token) x, l ++ [x] ≠ [])
    by (by intros [|??] ?).
  unfold tokenise_step.
  destruct (includes BASE_OPERATORS c); [done|].
  destruct (tokens_snoc_inv tokens) as [->|(front & t & ->)].
  - by destruct (is_space c).
  - rewrite last_snoc.
    destruct (is_space c), t; rewrite ?removelast_last.
    all: first [apply Hsnoc | done].
Qed.

(** A step only looks at the last token. *)
Lemma tokenise_step_app pre tokens c :
  tokens ≠ [] →
  tokenise_step (pre ++ tokens) c = pre ++ tokenise_step tokens c.
Proof.
  intros Hne.
  destruct (tokens_snoc_inv tokens) as [->|(front & t & ->)]; [done|].
  unfold tokenise_step. rewrite (app_assoc pre front [t]), !last_snoc.
  destruct (includes BASE_OPERATORS c); [by rewrite <- !app_assoc|].
  destruct (is_space c), t; rewrite ?removelast_last;
    by rewrite <- ?app_assoc.
Qed.

Lemma fold_tokenise_step_app input pre tokens :
  tokens ≠ [] →
  fold_left tokenise_step input (pre ++ tokens)
  = pre ++ fold_left tokenise_step input tokens.
Proof.
  revert tokens. induction input as [|c input IH]; intros tokens Hne; [done|].
  simpl. rewrite tokenise_step_app by done.
  apply IH, tokenise_step_nonempty.
Qed.

(** Starting after an operator token is starting afresh. *)
Lemma fold_tokenise_step_after_op input s :
  fold_left tokenise_step input [Op s]
  = Op s :: fold_left tokenise_step input [].
Proof.
  destruct input as [|c input]; [done|].
  simpl.
  assert (Hstep : tokenise_step [Op s] c = [Op s] ++ tokenise_step [] c).
  { unfold tokenise_step. simpl.
    destruct (includes BASE_OPERATORS c); [done|]. by destruct (is_space c). }
  rewrite Hstep, fold_tokenise_step_app by apply tokenise_step_nonempty.
  done.
Qed.

(** Starting after a white-space token changes white-space tokens only. *)
Lemma fold_tokenise_step_after_sp input :
  List.filter not_sp (fold_left tokenise_step input [Sp])
  = List.filter not_sp (fold_left tokenise_step input []).
Proof.
  destruct input as [|c input]; [done|].
  simpl.
  assert (Hstep : tokenise_step [Sp] c = tokenise_step [] c
                  ∨ tokenise_step [Sp] c = [Sp] ++ tokenise_step [] c).
  { unfold tokenise_step. simpl.
    destruct (includes BASE_OPERATORS c); [by right|].
    destruct (is_space c); [by left|by right]. }
  destruct Hstep as [->| ->]; [done|].
  by rewrite fold_tokenise_step_app by apply tokenise_step_nonempty.
Qed.

Lemma tokenise_filter input :
  tokenise input = map resolve_alias (List.filter not_sp (tokenise_scan input)).
Proof.
  unfold tokenise. f_equal.
  induction (tokenise_scan input) as [|t l IH]; [done|].
  rewrite filter_cons.
  destruct t; cbn [List.filter not_sp is_sp negb]; case_decide; try done;
    by rewrite IH.
Qed.

Lemma tokenise_app_space s1 w s2 :
  is_space w = true →
  tokenise (s1 ++ [w] ++ s2) = tokenise s1 ++ tokenise s2.
Proof.
  intros Hw. rewrite !tokenise_filter. unfold tokenise_scan.
  rewrite fold_left_app. simpl.
  set (T1 := fold_left tokenise_step s1 []).
  assert (Hbase : includes BASE_OPERATORS w = false).
  { destruct (includes BASE_OPERATORS w) eqn:E; [|done].
    apply bool_decide_eq_true in E. unfold BASE_OPERATORS in E.
    rewrite !elem_of_cons in E.
    destruct E as [->|[->|[->|[->|[->|[->|[->|[->|E]]]]]]]];
      try (by vm_compute in Hw). by apply elem_of_nil in E. }
  assert (Hstep : ∃ front, tokenise_step T1 w = front ++ [Sp]
                           ∧ List.filter not_sp front = List.filter not_sp T1).
  { unfold tokenise_step. rewrite Hbase, Hw.
    destruct (tokens_snoc_inv T1) as [->|(front & t & ->)].
    { by exists []. }
    rewrite last_snoc. destruct t.
    - by eexists.
    - exists front. split; [done|]. rewrite List.filter_app. simpl.
      by rewrite app_nil_r.
    - by eexists. }
  destruct Hstep as (front & -> & Hfront).
  rewrite fold_tokenise_step_app by done.
  by rewrite List.filter_app, fold_tokenise_step_after_sp, Hfront, map_app.
Qed.

(** X1. White space between two texts separates their tokens and leaves
    none of its own. *)
Theorem tokenise_white_space_splits s1 w s2 :
  is_space w = true →
  tokenise (s1 ++ [w] ++ s2) = tokenise s1 ++ tokenise s2.
Proof. apply tokenise_app_space. Qed.

Lemma tokenise_white_space_splits_witness :
  tokenise (lit "p" ++ [32%N] ++ lit "q") = tokenise (lit "p") ++ tokenise (lit "q").
Proof. apply tokenise_white_space_splits. reflexivity. Defined.

Lemma tokenise_app_operator s1 c s2 :
  includes BASE_OPERATORS c = true →
  tokenise (s1 ++ [c] ++ s2) = tokenise s1 ++ [Op [c]] ++ tokenise s2.
Proof.
  intros Hc. rewrite !tokenise_filter. unfold tokenise_scan.
  rewrite fold_left_app. simpl. unfold tokenise_step at 2. rewrite Hc.
  rewrite fold_tokenise_step_app by done.
  rewrite fold_tokenise_step_after_op.
  by rewrite List.filter_app, map_app.
Qed.

(** X2. A base operator character between two texts becomes one operator
    token between their tokens, whatever surrounds it. *)
Theorem tokenise_operator_splits s1 c s2 :
  includes BASE_OPERATORS c = true →
  tokenise (s1 ++ [c] ++ s2) = tokenise s1 ++ [Op [c]] ++ tokenise s2.
Proof. apply tokenise_app_operator. Qed.

Lemma tokenise_operator_splits_witness :
  tokenise (lit "p" ++ [c_and] ++ lit "q")
  = tokenise (lit "p") ++ [Op [c_and]] ++ tokenise (lit "q").
Proof. apply tokenise_operator_splits. reflexivity. Defined.

Lemma fold_tokenise_step_run s p :
  forallb is_identifier_char s = true →
  fold_left tokenise_step s [Str p] = [Str (p ++ s)].
Proof.
  revert p. induction s as [|c s IH]; intros p Hs.
  - by rewrite app_nil_r.
  - simpl in Hs. apply andb_true_iff in Hs as [Hc Hs].
    unfold is_identifier_char in Hc.
    apply andb_true_iff in Hc as [Hb Hw].
    apply negb_true_iff in Hb, Hw.
    simpl. unfold tokenise_step at 2. rewrite Hb, Hw. simpl.
    rewrite IH by done. by rewrite <- app_assoc.
Qed.

Lemma tokenise_scan_run s :
  s ≠ [] → forallb is_identifier_char s = true → tokenise_scan s = [Str s].
Proof.
  destruct s as [|c s]; [done|]. intros _ Hs.
  simpl in Hs. apply andb_true_iff in Hs as [Hc Hs].
  unfold is_identifier_char in Hc.
  apply andb_true_iff in Hc as [Hb Hw].
  apply negb_true_iff in Hb, Hw.
  unfold tokenise_scan. simpl. unfold tokenise_step at 2. rewrite Hb, Hw.
  simpl. by rewrite fold_tokenise_step_run.
Qed.

Lemma find_alias_None k :
  includes alias_keys k = false →
  List.find (fun kv : str * str => bool_decide (kv.1 = k)) EXTRA_OPERATORS
  = None.
Proof.
  unfold includes, alias_keys. intros Hk%bool_decide_eq_false.
  induction EXTRA_OPERATORS as [|kv l IH]; [done|].
  simpl in *. rewrite not_elem_of_cons in Hk. destruct Hk as [Hne Hk].
  rewrite bool_decide_eq_false_2 by done. by apply IH.
Qed.

Lemma find_alias_Some k kv :
  List.find (fun kv : str * str => bool_decide (kv.1 = k)) EXTRA_OPERATORS
  = Some kv →
  includes alias_keys k = true ∧ token_ok (Op kv.2) = true.
Proof.
  intros Hfind. pose proof (find_some _ _ Hfind) as [Hin Hk].
  apply bool_decide_eq_true in Hk. subst k. split.
  - apply bool_decide_eq_true. unfold alias_keys.
    apply list_elem_of_fmap. exists kv. split; [done|].
    by apply list_elem_of_In.
  - clear Hfind. unfold EXTRA_OPERATORS in Hin. simpl in Hin.
    repeat (destruct Hin as [<-|Hin]; [by vm_compute|]). done.
Qed.

Lemma tokenise_run_identifier s :
  identifier s = true → tokenise s = [Str s].
Proof.
  unfold identifier.
  intros [[Hne Hs]%andb_true_iff Hk]%andb_true_iff.
  apply negb_true_iff, bool_decide_eq_false in Hne.
  apply negb_true_iff in Hk.
  rewrite tokenise_filter, tokenise_scan_run by done.
  cbn [List.filter not_sp is_sp negb map resolve_alias].
  by rewrite find_alias_None.
Qed.

(** X3. A non-empty run of identifier characters whose lower case is no
    alias is tokenised into that one identifier, unchanged. *)
Theorem tokenise_identifier s :
  identifier s = true → tokenise s = [Str s].
Proof. apply tokenise_run_identifier. Qed.

Lemma tokenise_identifier_witness :
  tokenise (lit "Rain_1") = [Str (lit "Rain_1")].
Proof. apply tokenise_identifier. vm_compute. reflexivity. Defined.

Lemma toLowerCase_identifier_chars s :
  forallb is_identifier_char (toLowerCase s) = forallb is_identifier_char s.
Proof.
  induction s as [|c s IH]; [done|].
  cbn [toLowerCase map forallb]. fold (toLowerCase s). rewrite IH. f_equal.
  destruct ((65 <=? c)%N && (c <=? 90)%N) eqn:E; [|done].
  apply andb_true_iff in E as [Hlo%N.leb_le Hhi%N.leb_le].
  assert (Hident : ∀ d : N, (65 ≤ d ≤ 122)%N → is_identifier_char d = true).
  { intros d Hd. unfold is_identifier_char, is_space, includes.
    rewrite !bool_decide_eq_false_2.
    - simpl. apply negb_true_iff, andb_false_iff. left. apply N.leb_gt. lia.
    - rewrite !not_elem_of_cons. repeat split; try lia. apply not_elem_of_nil.
    - unfold BASE_OPERATORS, c_or, c_and, c_not, c_implies, c_iff,
        c_converse, c_open, c_close.
      rewrite !not_elem_of_cons. repeat split; try lia. apply not_elem_of_nil. }
  rewrite !Hident; [done|lia|lia].
Qed.

Lemma tokenise_alias_word s k v :
  (k, v) ∈ EXTRA_OPERATORS → toLowerCase s = k → tokenise s = [Op v].
Proof.
  intros Hkv Hs.
  assert (Hrun : s ≠ [] ∧ forallb is_identifier_char s = true
                 ∧ resolve_alias (Str s) = Op v).
  { assert (Hk : k ≠ [] → s ≠ []) by (intros Hk ->; by subst).
    rewrite <- toLowerCase_identifier_chars. unfold resolve_alias.
    rewrite Hs. clear Hs.
    unfold EXTRA_OPERATORS in Hkv. rewrite !elem_of_cons in Hkv.
    repeat (destruct Hkv as [[= -> ->]|Hkv];
            [split; [by apply Hk|split; by vm_compute]|]).
    by apply elem_of_nil in Hkv. }
  destruct Hrun as (Hne & Hid & Hres).
  rewrite tokenise_filter, tokenise_scan_run by done.
  cbn [List.filter not_sp is_sp negb map]. by rewrite Hres.
Qed.

(** X4. A text whose lower case is a key of [EXTRA_OPERATORS] is tokenised
    into the operator token of that key, whatever the case of its letters. *)
Theorem tokenise_alias s k v :
  (k, v) ∈ EXTRA_OPERATORS → toLowerCase s = k → tokenise s = [Op v].
Proof. apply tokenise_alias_word. Qed.

Lemma tokenise_alias_witness :
  tokenise (lit "ImPlIeS") = [Op [c_implies]].
Proof.
  apply (tokenise_alias _ (lit "implies")).
  - unfold EXTRA_OPERATORS. rewrite !elem_of_cons. tauto.
  - vm_compute. reflexivity.
Defined.

Lemma tokenise_step_scan_ok tokens c :
  forallb scan_ok tokens = true →
  forallb scan_ok (tokenise_step tokens c) = true.
Proof.
  intros Hinv. unfold tokenise_step.
  destruct (includes BASE_OPERATORS c) eqn:Hb.
  { rewrite forallb_app, Hinv. simpl. by rewrite Hb. }
  destruct (tokens_snoc_inv tokens) as [->|(front & t & ->)].
  { destruct (is_space c) eqn:Hw; [done|]. simpl.
    unfold is_identifier_char. by rewrite Hb, Hw. }
  rewrite last_snoc. rewrite forallb_app in Hinv.
  apply andb_true_iff in Hinv as [Hfront Ht].
  destruct (is_space c) eqn:Hw.
  - destruct t; rewrite !forallb_app, ?Hfront; simpl in *;
      by rewrite ?Ht.
  - assert (Hc : is_identifier_char c = true)
      by (unfold is_identifier_char; by rewrite Hb, Hw).
    destruct t; rewrite ?removelast_last, !forallb_app, ?Hfront; simpl in *;
      rewrite ?Ht, ?Hc; try done.
    rewrite andb_true_r in Ht. apply andb_true_iff in Ht as [Hne Hs].
    rewrite forallb_app, Hs. simpl. rewrite Hc. simpl.
    rewrite !andb_true_r. apply negb_true_iff, bool_decide_eq_false.
    by destruct s.
Qed.

Lemma tokenise_scan_ok input :
  forallb scan_ok (tokenise_scan input) = true.
Proof.
  unfold tokenise_scan.
  assert (H : ∀ tokens, forallb scan_ok tokens = true →
              forallb scan_ok (fold_left tokenise_step input tokens) = true).
  { induction input as [|c input IH]; intros tokens Hinv; [done|].
    simpl. by apply IH, tokenise_step_scan_ok. }
  by apply H.
Qed.

Lemma resolve_alias_ok t :
  scan_ok t = true → not_sp t = true → token_ok (resolve_alias t) = true.
Proof.
  destruct t as [s| |s]; try done.
  unfold resolve_alias, scan_ok. intros Hs _.
  destruct (List.find (λ kv : str * str, bool_decide (kv.1 = toLowerCase s))
                      EXTRA_OPERATORS) as [kv|] eqn:Hfind.
  - apply find_alias_Some in Hfind as [_ Hv]. exact Hv.
  - unfold token_ok, identifier. rewrite Hs. simpl.
    apply negb_true_iff. destruct (includes alias_keys _) eqn:Hk; [|done].
    apply bool_decide_eq_true in Hk. unfold alias_keys in Hk.
    apply list_elem_of_fmap in Hk as (kv & Hkv & Hin).
    apply list_elem_of_In in Hin.
    pose proof (find_none _ _ Hfind kv Hin) as Hf. simpl in Hf.
    by rewrite bool_decide_eq_true_2 in Hf.
Qed.

Lemma tokenise_forallb_token_ok input :
  forallb token_ok (tokenise input) = true.
Proof.
  rewrite tokenise_filter.
  pose proof (tokenise_scan_ok input) as Hscan.
  induction (tokenise_scan input) as [|t l IH]; [done|].
  simpl in Hscan. apply andb_true_iff in Hscan as [Ht Hl].
  cbn [List.filter]. destruct (not_sp t) eqn:Hsp; [|by apply IH].
  cbn [map forallb]. rewrite resolve_alias_ok by done. by apply IH.
Qed.

(** X5. Every token [tokenise] returns is either an operator token that
    carries one of the eight base operator characters, or an identifier
    token whose text is not empty, holds neither white space nor a base
    operator character, and is no alias; no ['sp'] token is returned. *)
Theorem tokenise_tokens_ok input :
  forallb token_ok (tokenise input) = true.
Proof. apply tokenise_forallb_token_ok. Qed.

End TokeniserStructure.

(** ** Adjacent identifier tokens *)

Section IdentifierRuns.

Lemma adjacent_identifiers_pair (l1 : list token) s s' (l2 : list token) :
  adjacent_identifiers (l1 ++ Str s :: Str s' :: l2) = true.
Proof.
  induction l1 as [|t l1 IH]; [done|].
  change ((t :: l1) ++ Str s :: Str s' :: l2)
    with (t :: (l1 ++ Str s :: Str s' :: l2)).
  destruct (l1 ++ Str s :: Str s' :: l2) as [|t2 rest] eqn:E.
  - by destruct l1.
  - change (adjacent_identifiers (t :: t2 :: rest))
      with ((is_str t && is_str t2) || adjacent_identifiers (t2 :: rest)).
    rewrite IH. apply orb_true_r.
Qed.

Lemma tokenise_no_adjacent input :
  forallb (fun c => negb (is_space c)) input = true →
  adjacent_identifiers (tokenise input) = false.
Proof.
  intros Hns. unfold tokenise.
  rewrite filter_no_sp by (by apply fold_tokenise_step_no_sp).
  apply adjacent_identifiers_resolve.
  by apply fold_tokenise_step_no_adjacent.
Qed.

Lemma resolve_alias_Str t s : resolve_alias t = Str s → t = Str s.
Proof.
  destruct t as [| |s0]; try done. unfold resolve_alias.
  by destruct (List.find _ _).
Qed.

(** An identifier token at the end of the scanned sequence is the end of
    the text. *)
Lemma tokenise_scan_last_identifier (u : str) (K : list token) (s : str) :
  tokenise_scan u = K ++ [Str s] → ∃ pre, u = pre ++ s.
Proof.
  revert K s. induction u as [|c u IH] using rev_ind; intros K s H.
  { by destruct K. }
  unfold tokenise_scan in H. rewrite fold_left_app in H. simpl in H.
  fold (tokenise_scan u) in H. unfold tokenise_step in H.
  destruct (includes BASE_OPERATORS c).
  { by apply app_inj_tail in H as [_ ?]. }
  destruct (tokens_snoc_inv (tokenise_scan u)) as [E|(front & t & E)];
    rewrite E in H.
  { simpl in H. destruct (is_space c).
    - by apply (app_inj_tail []) in H as [_ ?].
    - apply (app_inj_tail []) in H as [_ [= <-]]. by exists u. }
  rewrite last_snoc in H. destruct (is_space c).
  { destruct t; apply app_inj_tail in H as [_ ?]; done. }
  destruct t as [op| |s0].
  - apply app_inj_tail in H as [_ [= <-]]. by exists u.
  - apply app_inj_tail in H as [_ [= <-]]. by exists u.
  - rewrite removelast_last in H. apply app_inj_tail in H as [_ [= <-]].
    destruct (IH front s0 E) as [pre ->]. exists pre. by rewrite app_assoc.
Qed.

Lemma tokenise_last_identifier (u : str) (l1 : list token) (s : str) :
  forallb (fun c => negb (is_space c)) u = true →
  tokenise u = l1 ++ [Str s] → ∃ pre, u = pre ++ s.
Proof.
  intros Hns H. unfold tokenise in H.
  rewrite filter_no_sp in H by (by apply fold_tokenise_step_no_sp).
  apply map_eq_app in H as (K & last & Hscan & _ & Hlast).
  apply map_eq_cons in Hlast as (t & tl & -> & Ht & Htl).
  apply map_eq_nil in Htl as ->. apply resolve_alias_Str in Ht as ->.
  by apply (tokenise_scan_last_identifier u K s).
Qed.

Lemma not_identifier_char c :
  is_identifier_char c = false →
  includes BASE_OPERATORS c = true ∨ is_space c = true.
Proof.
  unfold is_identifier_char.
  destruct (includes BASE_OPERATORS c); [by left|].
  destruct (is_space c); [by right|done].
Qed.

(** The longest run of identifier characters a text starts with. *)
Lemma identifier_run_split (l : str) :
  ∃ run post, l = run ++ post
    ∧ forallb is_identifier_char run = true
    ∧ (post = [] ∨ ∃ c post', post = c :: post'
                              ∧ is_identifier_char c = false).
Proof.
  induction l as [|c l (run & post & -> & Hrun & Hpost)].
  { exists [], []. split; [done|]. split; [done|]. by left. }
  destruct (is_identifier_char c) eqn:Hc.
  - exists (c :: run), post. split; [done|]. split; [|done].
    simpl. by rewrite Hc, Hrun.
  - exists [], (c :: run ++ post). split; [done|]. split; [done|].
    right. by exists c, (run ++ post).
Qed.

Lemma tokenise_run_head (run post : str) :
  run ≠ [] →
  forallb is_identifier_char run = true →
  (post = [] ∨ ∃ c post', post = c :: post' ∧ is_identifier_char c = false) →
  ∃ l, tokenise (run ++ post) = resolve_alias (Str run) :: l.
Proof.
  intros Hne Hrun Hpost.
  assert (Hone : tokenise run = [resolve_alias (Str run)]).
  { rewrite tokenise_filter, tokenise_scan_run by done. done. }
  destruct Hpost as [->|(c & post' & -> & Hc)].
  { rewrite app_nil_r. by eexists. }
  change (c :: post') with ([c] ++ post').
  destruct (not_identifier_char c Hc) as [Hop|Hsp].
  - rewrite tokenise_app_operator, Hone by done. by eexists.
  - rewrite tokenise_app_space, Hone by done. by eexists.
Qed.

(** An identifier token at the head of the returned sequence is the text
    after its leading white space. *)
Lemma tokenise_first_identifier (rest : str) (s' : str) (l2 : list token) :
  tokenise rest = Str s' :: l2 →
  ∃ ws post, rest = ws ++ s' ++ post
    ∧ forallb is_space ws = true
    ∧ tokenise (s' ++ post) = Str s' :: l2.
Proof.
  induction rest as [|c rest IH]; [done|]. intros H.
  destruct (is_space c) eqn:Hsp.
  { change (c :: rest) with ([] ++ [c] ++ rest) in H.
    rewrite tokenise_app_space in H by done.
    destruct (IH H) as (ws & post & -> & Hws & Htok).
    exists (c :: ws), post. split; [done|]. split; [|done].
    simpl. by rewrite Hsp, Hws. }
  destruct (includes BASE_OPERATORS c) eqn:Hop.
  { change (c :: rest) with ([] ++ [c] ++ rest) in H.
    by rewrite tokenise_app_operator in H by done. }
  destruct (identifier_run_split (c :: rest)) as (run & post & E & Hrun & Hpost).
  assert (Hne : run ≠ []).
  { intros ->. destruct Hpost as [->|(c' & post' & -> & Hc')]; [done|].
    simpl in E. injection E as <- _.
    unfold is_identifier_char in Hc'. by rewrite Hsp, Hop in Hc'. }
  destruct (tokenise_run_head run post Hne Hrun Hpost) as [l Hhead].
  rewrite E in H. rewrite H in Hhead.
  assert (Hs : resolve_alias (Str run) = Str s') by congruence.
  apply resolve_alias_Str in Hs. injection Hs as <-.
  exists [], post. by rewrite E.
Qed.

(** A text is free of white space, or splits at its first white space
    character. *)
Lemma first_space_split (input : str) :
  forallb (fun c => negb (is_space c)) input = true
  ∨ ∃ u w rest, input = u ++ [w] ++ rest
      ∧ is_space w = true
      ∧ forallb (fun c => negb (is_space c)) u = true.
Proof.
  induction input as [|c input IH]; [by left|].
  destruct (is_space c) eqn:Hc.
  { right. by exists [], c, input. }
  destruct IH as [Hns|(u & w & rest & -> & Hw & Hu)].
  - left. simpl. by rewrite Hc, Hns.
  - right. exists (c :: u), w, rest. split; [done|]. split; [done|].
    simpl. by rewrite Hc, Hu.
Qed.

(** Two neighbours of the returned sequence that are both identifier tokens
    are two runs of the text with white space, and nothing else, between
    them. *)
Lemma adjacent_identifiers_separated (input : str) (l1 : list token)
    (s s' : str) (l2 : list token) :
  tokenise input = l1 ++ Str s :: Str s' :: l2 →
  ∃ pre ws post,
    input = pre ++ s ++ ws ++ s' ++ post
    ∧ ws ≠ []
    ∧ forallb is_space ws = true
    ∧ tokenise (pre ++ s) = l1 ++ [Str s]
    ∧ tokenise (s' ++ post) = Str s' :: l2.
Proof.
  remember (length input) as n eqn:Hn. revert input l1 Hn.
  induction n as [n IH] using lt_wf_ind. intros input l1 Hn H.
  destruct (first_space_split input) as [Hns|(u & w & rest & -> & Hw & Hu)].
  { apply tokenise_no_adjacent in Hns.
    by rewrite H, adjacent_identifiers_pair in Hns. }
  rewrite tokenise_app_space in H by done.
  apply app_eq_inv in H as [(k & Hu1 & Hk)|(k & -> & Hrest)].
  - destruct k as [|a [|b k]].
    + (* the pair lies in the tokens of [rest] *)
      rewrite app_nil_r in Hu1. simpl in Hk. symmetry in Hk.
      change (Str s :: Str s' :: l2) with ([] ++ Str s :: Str s' :: l2) in Hk.
      destruct (IH (length rest)) with (input := rest) (l1 := @nil token)
        as (pre & ws & post & -> & Hne & Hws & Hpre & Hpost); [|done|done|].
      { subst n. rewrite !length_app. simpl. lia. }
      exists (u ++ [w] ++ pre), ws, post. rewrite <- !app_assoc.
      split; [done|]. split; [done|]. split; [done|]. split; [|done].
      rewrite tokenise_app_space by done.
      by rewrite Hpre, Hu1.
    + (* the first of the pair ends [u], the second begins [rest] *)
      injection Hk as <- Hrest. symmetry in Hrest.
      destruct (tokenise_last_identifier u l1 s Hu Hu1) as [pre ->].
      destruct (tokenise_first_identifier rest s' l2 Hrest)
        as (ws & post & -> & Hws & Hpost).
      exists pre, (w :: ws), post. rewrite <- !app_assoc.
      split; [done|]. split; [done|]. split; [|done].
      simpl. by rewrite Hw, Hws.
    + (* the pair would lie in the tokens of [u] *)
      injection Hk as <- <- _.
      apply tokenise_no_adjacent in Hu.
      by rewrite Hu1, adjacent_identifiers_pair in Hu.
  - (* the pair lies further in the tokens of [rest] *)
    destruct (IH (length rest)) with (input := rest) (l1 := k)
      as (pre & ws & post & -> & Hne & Hws & Hpre & Hpost); [|done|done|].
    { subst n. rewrite !length_app. simpl. lia. }
    exists (u ++ [w] ++ pre), ws, post. rewrite <- !app_assoc.
    split; [done|]. split; [done|]. split; [done|]. split; [|done].
    rewrite tokenise_app_space by done.
    by rewrite Hpre, app_assoc.
Qed.

(** C9, amended. Consecutive identifier characters are merged into one
    token, and only white space separates two identifier tokens that are
    neighbours.  For every input: no two adjacent tokens of the sequence the
    scanning loop of [tokenise] builds (the one that still holds the ['sp']
    tokens) are both identifier tokens; if the input has no white space, no
    two adjacent tokens of the sequence [tokenise] returns are both
    identifier tokens; and whenever the returned sequence holds two adjacent
    identifier tokens [s] and [s'], the input is [pre ++ s ++ ws ++ s' ++ post]
    with [ws] a non-empty run of white space, the tokens up to [s] being
    those of [pre ++ s] and the tokens from [s'] on those of [s' ++ post].
    Two identifier runs separated only by white space, as in ["a b"], are
    returned as two adjacent identifier tokens. *)
Theorem identifier_runs_are_merged (input : str) :
  adjacent_identifiers (tokenise_scan input) = false
  ∧ (forallb (fun c => negb (is_space c)) input = true →
     adjacent_identifiers (tokenise input) = false)
  ∧ (∀ (l1 : list token) (s s' : str) (l2 : list token),
       tokenise input = l1 ++ Str s :: Str s' :: l2 →
       ∃ pre ws post,
         input = pre ++ s ++ ws ++ s' ++ post
         ∧ ws ≠ []
         ∧ forallb is_space ws = true
         ∧ tokenise (pre ++ s) = l1 ++ [Str s]
         ∧ tokenise (s' ++ post) = Str s' :: l2)
  ∧ tokenise text_a_b = [Str sym_a; Str sym_b]
  ∧ adjacent_identifiers (tokenise text_a_b) = true.
Proof.
  split; [by apply fold_tokenise_step_no_adjacent|].
  split; [apply tokenise_no_adjacent|].
  split; [apply adjacent_identifiers_separated|].
  split; by vm_compute.
Qed.

Lemma identifier_runs_are_merged_witness :
  (forallb (fun c => negb (is_space c)) (lit "ab(cd)not") = true
   ∧ adjacent_identifiers (tokenise (lit "ab(cd)not")) = false)
  ∧ (tokenise (lit "(ab  cd)") = [Op [c_open]] ++ Str (lit "ab") :: Str (lit "cd") :: [Op [c_close]]
     ∧ ∃ pre ws post,
         lit "(ab  cd)" = pre ++ lit "ab" ++ ws ++ lit "cd" ++ post
         ∧ ws ≠ []
         ∧ forallb is_space ws = true
         ∧ tokenise (pre ++ lit "ab") = [Op [c_open]] ++ [Str (lit "ab")]
         ∧ tokenise (lit "cd" ++ post) = Str (lit "cd") :: [Op [c_close]]).
Proof.
  assert (H : forallb (fun c => negb (is_space c)) (lit "ab(cd)not") = true)
    by (vm_compute; reflexivity).
  assert (H' : tokenise (lit "(ab  cd)")
               = [Op [c_open]] ++ Str (lit "ab") :: Str (lit "cd") :: [Op [c_close]])
    by (vm_compute; reflexivity).
  split; split; [exact H| |exact H'|].
  - exact (proj1 (proj2 (identifier_runs_are_merged (lit "ab(cd)not"))) H).
  - exact (proj1 (proj2 (proj2 (identifier_runs_are_merged (lit "(ab  cd)"))))
             [Op [c_open]] (lit "ab") (lit "cd") [Op [c_close]] H').
Defined.

End IdentifierRuns.

(** ** Grouping: what becomes of the tokens *)

Section Grouping.

Lemma leaves_of_app a b : leaves_of (a ++ b) = leaves_of a ++ leaves_of b.
Proof. apply flat_map_app. Qed.

Lemma leaves_of_snoc_Arr front inner :
  leaves_of (front ++ [Arr inner]) = leaves_of front ++ leaves_of inner.
Proof. rewrite leaves_of_app. unfold leaves_of. simpl. by rewrite app_nil_r. Qed.

Lemma leaves_of_singleton_Arr inner : leaves_of [Arr inner] = leaves_of inner.
Proof. apply (leaves_of_snoc_Arr []). Qed.

Lemma nodes_snoc_inv (tree : list node) :
  tree = [] ∨ ∃ front x, tree = front ++ [x].
Proof.
  induction tree as [|x tree _] using rev_ind; [by left|].
  right. by exists tree, x.
Qed.

Lemma push_at_leaves d tree obj :
  leaves_of (push_at d tree obj) = leaves_of tree ++ leaves obj.
Proof.
  revert tree. induction d as [|d IH]; intros tree; simpl.
  - rewrite leaves_of_app. unfold leaves_of at 2. simpl. by rewrite app_nil_r.
  - destruct (nodes_snoc_inv tree) as [->|(front & x & ->)].
    + cbn [last]. rewrite leaves_of_snoc_Arr. apply IH.
    + rewrite last_snoc. destruct x as [t|inner|].
      * rewrite leaves_of_snoc_Arr, IH. done.
      * rewrite removelast_last, !leaves_of_snoc_Arr, IH.
        by rewrite app_assoc.
      * rewrite leaves_of_snoc_Arr, IH. done.
Qed.

Lemma push_with_depth_leaves tree obj depth tree' :
  push_with_depth tree obj depth = Ok tree' →
  leaves_of tree' = leaves_of tree ++ leaves obj.
Proof.
  unfold push_with_depth.
  destruct (depth =? 0)%Z.
  { intros [= <-]. by rewrite <- (push_at_leaves 0). }
  destruct (depth <? 0)%Z; [done|].
  intros [= <-]. apply push_at_leaves.
Qed.

Lemma descend_leaves n depth :
  leaves_of (descend n depth).1 = leaves n ∨ (∃ t, n = Tok t) ∨ n = Undefined.
Proof.
  revert depth.
  induction n as [t| |l IHl] using node_nested_ind; intros depth; eauto.
  left. destruct l as [|x [|y l]]; try done.
  apply Forall_cons in IHl as [Hx _].
  destruct x as [t|inner|]; try done.
  destruct (Hx (depth - 1)%Z) as [H|[[t [=]]|[=]]].
  simpl in *. by rewrite H, app_nil_r.
Qed.

Lemma wrap_leaves n tree : leaves_of (wrap n tree) = leaves_of tree.
Proof.
  revert tree. induction n as [|n IH]; intros tree; [done|].
  simpl. rewrite IH. apply leaves_of_singleton_Arr.
Qed.

Lemma split_step_leaves st token st' :
  split_step st token = Ok st' →
  leaves_of st'.1 = leaves_of st.1 ++ kept token.
Proof.
  destruct st as [tree depth]. unfold split_step, kept.
  assert (Hpush : ∀ r, is_paren token = false →
            (tree' <- push_with_depth tree (Tok token) depth ;; Ok (tree', depth))
            = Ok r →
            leaves_of r.1 = leaves_of tree ++ [Tok token]).
  { intros r _. destruct (push_with_depth _ _ _) as [tree'|] eqn:E; [|done].
    intros [= <-]. by apply push_with_depth_leaves in E. }
  destruct token as [s| |s]; [|by apply Hpush..].
  unfold is_paren in *.
  case_bool_decide as Ho.
  { destruct (descend_leaves (Arr tree) (depth + 1)) as [Hd|[[t [=]]|[=]]].
    intros [= <-]. etrans; [exact Hd|]. simpl. by rewrite app_nil_r. }
  case_bool_decide as Hc; [|by apply Hpush].
  simpl. destruct (_ <? _)%Z; intros [= <-]; simpl;
    by rewrite ?wrap_leaves, app_nil_r.
Qed.

Lemma split_loop_leaves tokens st st' :
  split_loop tokens st = Ok st' →
  leaves_of st'.1 = leaves_of st.1 ++ flat_map kept tokens.
Proof.
  revert st. induction tokens as [|token rest IH]; intros st; simpl.
  - intros [= <-]. by rewrite app_nil_r.
  - destruct (split_step st token) as [st1|] eqn:E; [|done]. simpl.
    intros H%IH. apply split_step_leaves in E.
    by rewrite H, E, <- app_assoc.
Qed.

Lemma flat_map_kept tokens :
  flat_map kept tokens
  = map Tok (List.filter (fun t => negb (is_paren t)) tokens).
Proof.
  induction tokens as [|t tokens IH]; [done|].
  simpl. unfold kept at 1. destruct (is_paren t); simpl; by rewrite IH.
Qed.

(** X6. When grouping succeeds, the tokens of the structure it returns,
    read from left to right through all nesting levels, are the tokens it
    was given without the parentheses: no token is lost, added, moved or
    changed, and no parenthesis is kept. *)
Theorem split_by_parens_keeps_tokens tokens tree :
  split_by_parens tokens = Ok tree →
  leaves_of tree = map Tok (List.filter (fun t => negb (is_paren t)) tokens).
Proof.
  unfold split_by_parens.
  destruct (split_loop tokens ([], 0%Z)) as [st|] eqn:E; [|done].
  intros [= <-]. apply split_loop_leaves in E.
  by rewrite E, flat_map_kept.
Qed.

Lemma split_by_parens_keeps_tokens_witness :
  leaves_of [Tok (Str sym_a); Tok (Op [c_or]);
             Arr [Tok (Str sym_b); Tok (Op [c_and]); Tok (Str sym_c)]]
  = map Tok (List.filter (fun t => negb (is_paren t))
               (tokenise text_or_paren_and)).
Proof.
  apply split_by_parens_keeps_tokens. vm_compute. reflexivity.
Defined.

Lemma split_loop_flat tokens tree :
  forallb (fun t => negb (is_paren t)) tokens = true →
  split_loop tokens (tree, 0%Z) = Ok (tree ++ map Tok tokens, 0%Z).
Proof.
  revert tree. induction tokens as [|token rest IH]; intros tree Hflat.
  - by rewrite app_nil_r.
  - simpl in Hflat. apply andb_true_iff in Hflat as [Ht Hrest].
    assert (Hstep : split_step (tree, 0%Z) token
                    = Ok (tree ++ [Tok token], 0%Z)).
    { destruct token as [s| |s]; try done.
      unfold is_paren in Ht. apply negb_true_iff, orb_false_iff in Ht as [Ho Hc].
      unfold split_step. by rewrite Ho, Hc. }
    cbn [split_loop]. rewrite Hstep. cbn [bind]. rewrite IH by done.
    by rewrite <- app_assoc.
Qed.

(** X7. A token sequence without parentheses is grouped into the flat
    array of its tokens. *)
Theorem split_by_parens_flat tokens :
  forallb (fun t => negb (is_paren t)) tokens = true →
  split_by_parens tokens = Ok (map Tok tokens).
Proof.
  intros Hflat. unfold split_by_parens.
  by rewrite split_loop_flat.
Qed.

Lemma split_by_parens_flat_witness :
  split_by_parens (tokenise text_or_and) = Ok (map Tok (tokenise text_or_and)).
Proof. apply split_by_parens_flat. vm_compute. reflexivity. Defined.

Lemma split_loop_inside tokens inner :
  forallb (fun t => negb (is_paren t)) tokens = true →
  split_loop tokens ([Arr inner], 1%Z)
  = Ok ([Arr (inner ++ map Tok tokens)], 1%Z).
Proof.
  revert inner. induction tokens as [|token rest IH]; intros inner Hflat.
  - by rewrite app_nil_r.
  - simpl in Hflat. apply andb_true_iff in Hflat as [Ht Hrest].
    assert (Hstep : split_step ([Arr inner], 1%Z) token
                    = Ok ([Arr (inner ++ [Tok token])], 1%Z)).
    { destruct token as [s| |s]; try done.
      unfold is_paren in Ht. apply negb_true_iff, orb_false_iff in Ht as [Ho Hc].
      unfold split_step. by rewrite Ho, Hc. }
    cbn [split_loop]. rewrite Hstep. cbn [bind]. rewrite IH by done.
    by rewrite <- app_assoc.
Qed.

(** X8. A non-empty run of tokens without parentheses, enclosed in one pair
    of parentheses, is grouped into one nested array that holds the run. *)
Theorem split_by_parens_enclosed tokens :
  tokens ≠ [] →
  forallb (fun t => negb (is_paren t)) tokens = true →
  split_by_parens ([Op [c_open]] ++ tokens ++ [Op [c_close]])
  = Ok [Arr (map Tok tokens)].
Proof.
  destruct tokens as [|token rest]; [done|]. intros _ Hflat.
  simpl in Hflat. apply andb_true_iff in Hflat as [Ht Hrest].
  unfold split_by_parens.
  change (split_loop ([Op [c_open]] ++ (token :: rest) ++ [Op [c_close]])
            ([], 0%Z))
    with (st <- split_step ([], 1%Z) token ;;
          split_loop (rest ++ [Op [c_close]]) st).
  assert (Hstep : split_step ([], 1%Z) token = Ok ([Arr [Tok token]], 1%Z)).
  { destruct token as [s| |s]; try done.
    unfold is_paren in Ht. apply negb_true_iff, orb_false_iff in Ht as [Ho Hc].
    unfold split_step. by rewrite Ho, Hc. }
  rewrite Hstep. simpl.
  assert (Happ : ∀ l1 l2 st st1,
            split_loop l1 st = Ok st1 →
            split_loop (l1 ++ l2) st = split_loop l2 st1).
  { induction l1 as [|t l1 IH]; intros l2 st st1; simpl.
    - by intros [= ->].
    - destruct (split_step st t); [|done]. simpl. apply IH. }
  rewrite (Happ _ _ _ _ (split_loop_inside rest [Tok token] Hrest)).
  reflexivity.
Qed.

Lemma split_by_parens_enclosed_witness :
  split_by_parens ([Op [c_open]] ++ [Str sym_a; Op [c_and]; Str sym_b]
                   ++ [Op [c_close]])
  = Ok [Arr (map Tok [Str sym_a; Op [c_and]; Str sym_b])].
Proof. apply split_by_parens_enclosed; [done|]. vm_compute. reflexivity. Defined.

End Grouping.

(** ** Fusion and splitting: [undefined] and the order of the tokens *)

(** Closes a goal [Undefined ∉ leaves_of tree] for a given [tree]. *)
Ltac no_undefined :=
  unfold leaves_of; simpl; rewrite ?not_elem_of_cons;
  repeat split; try discriminate; apply not_elem_of_nil.

Section FusionSplitting.

Lemma leaves_of_cons x tree : leaves_of (x :: tree) = leaves x ++ leaves_of tree.
Proof. done. Qed.



Lemma combine_unary_node_leaves n r :
  combine_unary_node n = Ok r →
  List.filter is_defined (leaves r) = List.filter is_defined (leaves n).
Proof.
  revert r.
  induction n as [t| |tree IHtree] using node_nested_ind; intros r;
    try (by intros [= <-]).
  cbn [combine_unary_node].
  match goal with |- context [fold_right ?f _ _] => set (step := f) end.
  destruct (fold_right step (Ok []) tree) as [r0|] eqn:Hfold; [|done].
  intros [= <-]. change (List.filter is_defined (leaves_of r0)
                         = List.filter is_defined (leaves_of tree)).
  revert r0 Hfold.
  induction IHtree as [|x tree Hx _ IH]; intros r0; [by intros [= <-]|].
  cbn [fold_right].
  destruct (fold_right step (Ok []) tree) as [result|]; [|done].
  specialize (IH result eq_refl).
  unfold step at 1. cbn [bind]. rewrite (leaves_of_cons x tree).
  rewrite List.filter_app, <- IH, <- List.filter_app.
  destruct x as [[s| |s]|l|]; try (by intros [= <-]).
  - case_bool_decide; [|by intros [= <-]].
    intros [= <-]. destruct result as [|h rest]; [done|].
    cbn [shift fst snd]. rewrite leaves_of_cons. f_equal.
    change (leaves (Arr [Tok (Op s); h])) with (leaves_of [Tok (Op s); h]).
    rewrite !leaves_of_cons. simpl. by rewrite app_nil_r.
  - destruct (combine_unary_node (Arr l)) as [c|] eqn:Hc; [|done].
    intros [= <-]. rewrite !leaves_of_cons, !List.filter_app.
    by rewrite (Hx c).
Qed.

Lemma combine_unary_leaves tree r :
  combine_unary tree = Ok r →
  List.filter is_defined (leaves_of r) = List.filter is_defined (leaves_of tree).
Proof.
  unfold combine_unary.
  destruct (combine_unary_node (Arr tree)) as [[t|l|]|] eqn:E; try done.
  intros [= <-]. by apply combine_unary_node_leaves in E.
Qed.

Lemma process_loop_leaves rec tree ops i rhs r :
  (∀ t r, weight t < weight tree → rec t = Ok r → leaves_of r = leaves_of t) →
  process_loop rec tree ops i rhs = Ok r →
  leaves_of r = leaves_of (take i tree) ++ leaves_of rhs.
Proof.
  intros Hrec. revert rhs. induction i as [|i IH]; intros rhs.
  { simpl. by intros [= <-]. }
  cbn [process_loop].
  destruct (tree !! i) as [x|] eqn:Hi; [|done].
  rewrite (take_S_r _ _ _ Hi), leaves_of_app.
  destruct x as [[s| |s]|l|]; try done.
  - destruct (includes ops s).
    + destruct (rec (take i tree)) as [lhs|] eqn:Hlhs; [|done].
      intros [= <-]. apply Hrec in Hlhs.
      2:{ apply weight_take. by eapply lookup_lt_Some. }
      rewrite !leaves_of_cons. simpl. rewrite !app_nil_r, <- Hlhs.
      by rewrite <- app_assoc.
    + intros H%IH. rewrite H, leaves_of_cons, <- app_assoc. done.
  - intros H%IH. rewrite H, leaves_of_cons, <- app_assoc. done.
  - intros H%IH. rewrite H, leaves_of_cons, <- app_assoc. done.
  - destruct (rec l) as [r0|] eqn:Hl; [|done]. cbn [bind].
    intros H%IH. apply Hrec in Hl; [|by eapply weight_lookup_Arr].
    rewrite H, leaves_of_cons, <- app_assoc. simpl.
    change (flat_map leaves r0) with (leaves_of r0).
    change (flat_map leaves l) with (leaves_of l).
    by rewrite Hl, app_nil_r.
Qed.

Lemma process_operators_fuel_leaves fuel tree ops r :
  weight tree < fuel →
  process_operators_fuel fuel tree ops = Ok r → leaves_of r = leaves_of tree.
Proof.
  revert tree r. induction fuel as [|fuel IH]; intros tree r Hfuel; [lia|].
  simpl. intros H%process_loop_leaves.
  - by rewrite H, firstn_all, app_nil_r.
  - intros t r0 Ht. apply IH. lia.
Qed.

Lemma process_operators_leaves tree ops r :
  process_operators tree ops = Ok r → leaves_of r = leaves_of tree.
Proof. apply process_operators_fuel_leaves. lia. Qed.

Lemma process_loop_defined rec tree ops i rhs :
  (∀ t, weight t < weight tree → Undefined ∉ leaves_of t → ∃ r, rec t = Ok r) →
  i ≤ length tree →
  Undefined ∉ leaves_of (take i tree) →
  ∃ r, process_loop rec tree ops i rhs = Ok r.
Proof.
  intros Hrec. revert rhs. induction i as [|i IH]; intros rhs Hi Hdef.
  { by eexists. }
  cbn [process_loop].
  destruct (lookup_lt_is_Some_2 tree i) as [x Hx]; [lia|].
  rewrite Hx. rewrite (take_S_r _ _ _ Hx), leaves_of_app in Hdef.
  apply not_elem_of_app in Hdef as [Hdi Hdx].
  unfold leaves_of in Hdx. simpl in Hdx. rewrite app_nil_r in Hdx.
  destruct x as [[s| |s]|l|].
  - destruct (includes ops s); [|apply IH; [lia|done]].
    destruct (Hrec (take i tree)) as [lhs ->]; [|done|by eexists].
    apply weight_take. lia.
  - apply IH; [lia|done].
  - apply IH; [lia|done].
  - destruct (Hrec l) as [r0 ->]; [by eapply weight_lookup_Arr|done|].
    apply IH; [lia|done].
  - exfalso. apply Hdx, list_elem_of_here.
Qed.

Lemma process_loop_undefined rec tree ops i rhs :
  (∀ t, weight t < weight tree → Undefined ∈ leaves_of t →
        rec t = Err TypeError) →
  (∀ t e, weight t < weight tree → rec t = Err e → e = TypeError) →
  Undefined ∈ leaves_of (take i tree) →
  process_loop rec tree ops i rhs = Err TypeError.
Proof.
  intros Hrec Herr. revert rhs. induction i as [|i IH]; intros rhs Hin.
  { simpl in Hin. by apply elem_of_nil in Hin. }
  cbn [process_loop].
  destruct (tree !! i) as [x|] eqn:Hx; [|done].
  rewrite (take_S_r _ _ _ Hx), leaves_of_app in Hin.
  apply elem_of_app in Hin as [Hin|Hin].
  - destruct x as [[s| |s]|l|]; try (by apply IH); try done.
    + destruct (includes ops s); [|by apply IH].
      rewrite Hrec; [done| |done]. apply weight_take. by eapply lookup_lt_Some.
    + destruct (rec l) as [r0|e] eqn:Hl; [by apply IH|].
      apply Herr in Hl as ->; [done|]. by eapply weight_lookup_Arr.
  - unfold leaves_of in Hin. simpl in Hin. rewrite app_nil_r in Hin.
    destruct x as [[s| |s]|l|]; try done;
      try (apply list_elem_of_singleton in Hin; done).
    rewrite Hrec; [done| |done]. by eapply weight_lookup_Arr.
Qed.

Lemma process_operators_fuel_defined fuel tree ops :
  weight tree < fuel →
  (Undefined ∉ leaves_of tree → ∃ r, process_operators_fuel fuel tree ops = Ok r)
  ∧ (Undefined ∈ leaves_of tree →
     process_operators_fuel fuel tree ops = Err TypeError).
Proof.
  revert tree. induction fuel as [|fuel IH]; intros tree Hfuel; [lia|].
  simpl. split; intros Hdef.
  - apply process_loop_defined; [|done|by rewrite firstn_all].
    intros t Ht. apply IH. lia.
  - apply process_loop_undefined; [| |by rewrite firstn_all].
    + intros t Ht. apply IH. lia.
    + intros t e Ht. apply process_operators_fuel_error. lia.
Qed.

(** X9. [process_operators] fails, with the [TypeError], exactly on the
    structures that hold [undefined] at some depth; on every other structure
    it returns a structure, for any set of operators. *)
Theorem process_operators_fails_on_undefined_only tree ops :
  (Undefined ∉ leaves_of tree → ∃ r, process_operators tree ops = Ok r)
  ∧ (Undefined ∈ leaves_of tree → process_operators tree ops = Err TypeError).
Proof. apply process_operators_fuel_defined. lia. Qed.

Lemma process_operators_fails_on_undefined_only_witness :
  (∃ r, process_operators [Tok (Str sym_a); Tok (Op [c_and]); Tok (Str sym_b)]
          [[c_and]] = Ok r)
  ∧ process_operators [Tok (Str sym_a); Arr [Tok (Op [c_not]); Undefined]]
      [[c_and]] = Err TypeError.
Proof.
  split.
  - apply process_operators_fails_on_undefined_only. no_undefined.
  - apply process_operators_fails_on_undefined_only.
    unfold leaves_of; simpl. rewrite !elem_of_cons. tauto.
Defined.





End FusionSplitting.

(** ** The syntax tree [parse] returns *)

Section WellFormed.

Lemma made_of_weaken n n' t :
  (∀ x, x ∈ leaves n → x ∈ leaves n') → made_of n t → made_of n' t.
Proof.
  intros Hsub (Ha & Ho & Hl). split; [done|].
  split; eapply Forall_impl; eauto; simpl; eauto.
Qed.

Lemma made_of_Leaf n s : Tok (Str s) ∈ leaves n → made_of n (Leaf s).
Proof.
  intros Hin. split; [done|]. split; simpl; [constructor|].
  by constructor.
Qed.

Lemma not_operator_false x :
  not_operator x = Ok false → ∃ s, x = Tok (Op s).
Proof. destruct x as [[s| |s]|l|]; try done. by exists s. Qed.

Lemma reformat_made_of n t : reformat n = Ok t → made_of n t.
Proof.
  revert t.
  induction n as [[s| |s]| |tree IHtree] using node_nested_ind; intros t;
    try done.
  { intros [= <-]. apply made_of_Leaf, list_elem_of_here. }
  destruct tree as [|x0 [|x1 [|x2 [|x3 tree]]]]; try done.
  - apply Forall_cons in IHtree as [H0 _].
    destruct x0 as [[s| |s]|l|]; try done.
    + intros [= <-]. apply made_of_Leaf. simpl. apply list_elem_of_here.
    + intros Hr. apply H0 in Hr. revert Hr. apply made_of_weaken.
      intros x Hx. change (x ∈ leaves (Arr l) ++ []). by rewrite app_nil_r.
  - apply Forall_cons in IHtree as [_ [H1 _]%Forall_cons].
    cbn [reformat].
    destruct (not_operator x0) as [[|]|] eqn:E0; try done.
    apply not_operator_false in E0 as [s0 ->]. cbn [bind].
    destruct (bare_operator x1) as [[|]|]; try done. cbn [bind].
    destruct (reformat x1) as [a|] eqn:Ea; [|done]. intros [= <-].
    destruct (H1 a eq_refl) as (Ha & Ho & Hl).
    assert (Hsub : ∀ x, x ∈ leaves x1 → x ∈ leaves (Arr [Tok (Op s0); x1])).
    { intros x Hx. change (x ∈ [Tok (Op s0)] ++ leaves x1 ++ []).
      rewrite app_nil_r. apply elem_of_app. by right. }
    split; [by simpl; rewrite Ha|].
    split; cbn [operators leaf_names flat_map]; rewrite app_nil_r.
    + constructor; [apply list_elem_of_here|].
      eapply Forall_impl; [exact Ho|]. intros op Hop. by apply Hsub.
    + eapply Forall_impl; [exact Hl|]. intros name Hname. by apply Hsub.
  - apply Forall_cons in IHtree as [H0 [_ [H2 _]%Forall_cons]%Forall_cons].
    cbn [reformat].
    destruct (not_operator x1) as [[|]|] eqn:E1; try done.
    apply not_operator_false in E1 as [s1 ->]. cbn [bind].
    destruct (bare_operator x0) as [[|]|]; try done. cbn [bind].
    destruct (bare_operator x2) as [[|]|]; try done. cbn [bind].
    destruct (reformat x0) as [a|] eqn:Ea; [|done]. cbn [bind].
    destruct (reformat x2) as [b|] eqn:Eb; [|done]. intros [= <-].
    destruct (H0 a eq_refl) as (Ha & Hoa & Hla).
    destruct (H2 b eq_refl) as (Hb & Hob & Hlb).
    assert (Hsub0 : ∀ x, x ∈ leaves x0 →
                         x ∈ leaves (Arr [x0; Tok (Op s1); x2])).
    { intros x Hx. change (x ∈ leaves x0 ++ [Tok (Op s1)] ++ leaves x2 ++ []).
      apply elem_of_app. by left. }
    assert (Hsub2 : ∀ x, x ∈ leaves x2 →
                         x ∈ leaves (Arr [x0; Tok (Op s1); x2])).
    { intros x Hx. change (x ∈ leaves x0 ++ [Tok (Op s1)] ++ leaves x2 ++ []).
      rewrite app_nil_r, !elem_of_app. by right; right. }
    assert (Hmid : Tok (Op s1) ∈ leaves (Arr [x0; Tok (Op s1); x2])).
    { change (Tok (Op s1) ∈ leaves x0 ++ [Tok (Op s1)] ++ leaves x2 ++ []).
      rewrite !elem_of_app. right; left. apply list_elem_of_here. }
    split; [by simpl; rewrite Ha, Hb|].
    split; cbn [operators leaf_names flat_map]; rewrite app_nil_r.
    + constructor; [done|]. apply Forall_app. split.
      * eapply Forall_impl; [exact Hoa|]. intros op Hop. by apply Hsub0.
      * eapply Forall_impl; [exact Hob|]. intros op Hop. by apply Hsub2.
    + apply Forall_app. split.
      * eapply Forall_impl; [exact Hla|]. intros name Hname. by apply Hsub0.
      * eapply Forall_impl; [exact Hlb|]. intros name Hname. by apply Hsub2.
Qed.

Lemma connective_of_token s :
  token_ok (Op s) = true → is_paren (Op s) = false → s ∈ connectives.
Proof.
  destruct s as [|c [|c' s]]; try done. simpl.
  intros Hc%bool_decide_eq_true Hp.
  apply orb_false_iff in Hp as [Ho%bool_decide_eq_false Hcl%bool_decide_eq_false].
  unfold BASE_OPERATORS in Hc. unfold connectives.
  rewrite !elem_of_cons in Hc. rewrite !elem_of_cons.
  destruct Hc as [->|[->|[->|[->|[->|[->|[->|[->|Hc]]]]]]]]; try tauto.
  by apply elem_of_nil in Hc.
Qed.

(** The tokens of the structure that reaches [reformat] are tokens that
    [tokenise] returned, parentheses excepted. *)
Lemma parse_tokens_made_of tokens t :
  parse_tokens tokens = Ok t →
  arity_ok t = true
  ∧ Forall (fun op => Op op ∈ tokens ∧ is_paren (Op op) = false) (operators t)
  ∧ Forall (fun name => Str name ∈ tokens) (leaf_names t).
Proof.
  unfold parse_tokens.
  destruct (split_by_parens tokens) as [t0|] eqn:E0; [|done]. cbn [bind].
  destruct (combine_unary t0) as [t1|] eqn:E1; [|done]. cbn [bind].
  destruct (process_operators t1 _) as [t2|] eqn:E2; [|done]. cbn [bind].
  destruct (process_operators t2 _) as [t3|] eqn:E3; [|done]. cbn [bind].
  destruct (process_operators t3 _) as [t4|] eqn:E4; [|done]. cbn [bind].
  destruct (process_operators t4 _) as [t5|] eqn:E5; [|done]. cbn [bind].
  intros (Ha & Ho & Hl)%reformat_made_of.
  apply process_operators_leaves in E2, E3, E4, E5.
  apply combine_unary_leaves in E1.
  unfold split_by_parens in E0.
  destruct (split_loop tokens ([], 0%Z)) as [st|] eqn:E; [|done].
  injection E0 as <-. apply split_loop_leaves in E.
  rewrite flat_map_kept in E. simpl in E.
  assert (Hfrom : ∀ tok, Tok tok ∈ leaves (Arr t5) →
                         tok ∈ tokens ∧ is_paren tok = false).
  { intros tok Htok. change (Tok tok ∈ leaves_of t5) in Htok.
    rewrite E5, E4, E3, E2 in Htok.
    assert (Hdef : Tok tok ∈ List.filter is_defined (leaves_of t1)).
    { apply list_elem_of_In, filter_In. by rewrite <- list_elem_of_In. }
    rewrite E1 in Hdef.
    apply list_elem_of_In, filter_In in Hdef as [Hdef _].
    apply list_elem_of_In in Hdef. rewrite E in Hdef.
    apply list_elem_of_fmap in Hdef as (tok' & [= <-] & Hin).
    apply list_elem_of_In, filter_In in Hin as [Hin Hp].
    apply list_elem_of_In in Hin. split; [done|]. by apply negb_true_iff. }
  split; [done|]. split.
  - eapply Forall_impl; [exact Ho|]. intros op Hop. by apply Hfrom.
  - eapply Forall_impl; [exact Hl|]. intros name Hname.
    by apply Hfrom in Hname as [? _].
Qed.

(** X12. In every syntax tree [parse] returns, each operator node has one or
    two operands and one of the six connectives as operator, and each leaf
    is an identifier of the text: a non-empty name without white space or
    base operator character that is no alias. *)
Theorem parse_tree_well_formed input t :
  parse input = Ok t →
  arity_ok t = true
  ∧ Forall (fun op => op ∈ connectives) (operators t)
  ∧ Forall (fun name => identifier name = true) (leaf_names t).
Proof.
  intros Hparse.
  apply (parse_tokens_made_of (tokenise input)) in Hparse
    as (Ha & Ho & Hl).
  pose proof (tokenise_forallb_token_ok input) as Hok.
  rewrite forallb_forall in Hok.
  split; [done|]. split.
  - eapply Forall_impl; [exact Ho|]. intros op [Hin Hp]. simpl in *.
    apply connective_of_token; [|done]. by apply Hok, list_elem_of_In.
  - eapply Forall_impl; [exact Hl|]. intros name Hin. simpl in *.
    by apply (Hok (Str name)), list_elem_of_In.
Qed.

Lemma parse_tree_well_formed_witness :
  let t := Node [c_or] [Leaf sym_a; Node [c_and] [Leaf sym_b; Leaf sym_c]] in
  arity_ok t = true
  ∧ Forall (fun op => op ∈ connectives) (operators t)
  ∧ Forall (fun name => identifier name = true) (leaf_names t).
Proof.
  apply (parse_tree_well_formed text_or_and). vm_compute. reflexivity.
Defined.

End WellFormed.

(** ** Parsing texts made of identifiers and connectives *)

(** Splits a hypothesis [c ∈ binary_connectives] into its five cases. *)
Ltac binary_cases H :=
  unfold binary_connectives in H; rewrite !elem_of_cons in H;
  destruct H as [->|[->|[->|[->|[->|H]]]]]; [| | | | |by apply elem_of_nil in H].

Section ParseShapes.

Lemma binary_is_base c :
  c ∈ binary_connectives → includes BASE_OPERATORS c = true.
Proof. intros H. binary_cases H; by vm_compute. Qed.

Lemma tokenise_nil : tokenise [] = [].
Proof. done. Qed.

Lemma tokenise_operator_first c rest :
  includes BASE_OPERATORS c = true →
  tokenise (c :: rest) = Op [c] :: tokenise rest.
Proof. intros Hc. exact (tokenise_app_operator [] c rest Hc). Qed.

Lemma tokenise_identifier_operator x c rest :
  identifier x = true → includes BASE_OPERATORS c = true →
  tokenise (x ++ c :: rest) = Str x :: Op [c] :: tokenise rest.
Proof.
  intros Hx Hc.
  change (x ++ c :: rest) with (x ++ [c] ++ rest).
  by rewrite (tokenise_app_operator x c rest Hc), tokenise_run_identifier.
Qed.

(** Rewrites [tokenise] of a text written with identifiers and base
    operator characters into its tokens. *)
Ltac tokenise_text :=
  repeat first
    [ rewrite tokenise_identifier_operator by done
    | rewrite tokenise_operator_first by done
    | rewrite tokenise_run_identifier by done
    | rewrite tokenise_nil ].

Lemma parse_parse_tokens input : parse input = parse_tokens (tokenise input).
Proof. done. Qed.

(** X13. An identifier alone parses to its leaf; two identifiers joined by
    a binary connective parse to the node of that connective over the two
    leaves, in the order of the text. *)
Theorem parse_identifier_and_binary x y c :
  identifier x = true → identifier y = true → c ∈ binary_connectives →
  parse x = Ok (Leaf x)
  ∧ parse (x ++ [c] ++ y) = Ok (Node [c] [Leaf x; Leaf y]).
Proof.
  intros Hx Hy Hc. pose proof (binary_is_base c Hc) as Hb.
  rewrite !parse_parse_tokens. simpl.
  rewrite tokenise_identifier_operator, !tokenise_run_identifier by done.
  split; [by vm_compute|].
  binary_cases Hc; by vm_compute.
Qed.

Lemma parse_identifier_and_binary_witness :
  parse (lit "rain") = Ok (Leaf (lit "rain"))
  ∧ parse (lit "rain" ++ [c_implies] ++ lit "wet")
    = Ok (Node [c_implies] [Leaf (lit "rain"); Leaf (lit "wet")]).
Proof.
  apply parse_identifier_and_binary; [by vm_compute|by vm_compute|].
  unfold binary_connectives. rewrite !elem_of_cons. tauto.
Defined.



(** X15. Parentheses override precedence, for all identifiers and all
    pairs of binary connectives: [x c1 (y c2 z)] is split at [c1] and
    [(x c1 y) c2 z] at [c2]. *)
Theorem parse_parenthesised x y z c1 c2 :
  identifier x = true → identifier y = true → identifier z = true →
  c1 ∈ binary_connectives → c2 ∈ binary_connectives →
  parse (x ++ [c1] ++ [c_open] ++ y ++ [c2] ++ z ++ [c_close])
  = Ok (Node [c1] [Leaf x; Node [c2] [Leaf y; Leaf z]])
  ∧ parse ([c_open] ++ x ++ [c1] ++ y ++ [c_close] ++ [c2] ++ z)
    = Ok (Node [c2] [Node [c1] [Leaf x; Leaf y]; Leaf z]).
Proof.
  intros Hx Hy Hz H1 H2.
  pose proof (binary_is_base c1 H1) as Hb1.
  pose proof (binary_is_base c2 H2) as Hb2.
  rewrite !parse_parse_tokens. simpl.
  tokenise_text.
  split; binary_cases H1; binary_cases H2; by vm_compute.
Qed.

Lemma parse_parenthesised_witness :
  parse (lit "p" ++ [c_and] ++ [c_open] ++ lit "q" ++ [c_or] ++ lit "r"
         ++ [c_close])
  = Ok (Node [c_and] [Leaf (lit "p"); Node [c_or] [Leaf (lit "q"); Leaf (lit "r")]])
  ∧ parse ([c_open] ++ lit "p" ++ [c_and] ++ lit "q" ++ [c_close] ++ [c_or]
           ++ lit "r")
    = Ok (Node [c_or] [Node [c_and] [Leaf (lit "p"); Leaf (lit "q")]; Leaf (lit "r")]).
Proof.
  apply (parse_parenthesised (lit "p") (lit "q") (lit "r"));
    try (by vm_compute);
    unfold binary_connectives; rewrite !elem_of_cons; tauto.
Defined.

(** X16. Negation binds tighter than every binary connective, on either
    side of it, and a negation may be negated; for all identifiers. *)
Theorem parse_negation x y c :
  identifier x = true → identifier y = true → c ∈ binary_connectives →
  parse ([c_not] ++ x) = Ok (Node [c_not] [Leaf x])
  ∧ parse ([c_not; c_not] ++ x) = Ok (Node [c_not] [Node [c_not] [Leaf x]])
  ∧ parse ([c_not] ++ x ++ [c] ++ y)
    = Ok (Node [c] [Node [c_not] [Leaf x]; Leaf y])
  ∧ parse (x ++ [c] ++ [c_not] ++ y)
    = Ok (Node [c] [Leaf x; Node [c_not] [Leaf y]]).
Proof.
  intros Hx Hy Hc. pose proof (binary_is_base c Hc) as Hb.
  rewrite !parse_parse_tokens. simpl. tokenise_text.
  repeat split; try (by vm_compute); binary_cases Hc; by vm_compute.
Qed.

Lemma parse_negation_witness :
  parse ([c_not] ++ lit "p") = Ok (Node [c_not] [Leaf (lit "p")])
  ∧ parse ([c_not; c_not] ++ lit "p")
    = Ok (Node [c_not] [Node [c_not] [Leaf (lit "p")]])
  ∧ parse ([c_not] ++ lit "p" ++ [c_and] ++ lit "q")
    = Ok (Node [c_and] [Node [c_not] [Leaf (lit "p")]; Leaf (lit "q")])
  ∧ parse (lit "p" ++ [c_and] ++ [c_not] ++ lit "q")
    = Ok (Node [c_and] [Leaf (lit "p"); Node [c_not] [Leaf (lit "q")]]).
Proof.
  apply (parse_negation (lit "p") (lit "q")); try (by vm_compute).
  unfold binary_connectives. rewrite !elem_of_cons. tauto.
Defined.

(** X17. A binary connective that lacks an operand, on the left, on the
    right or on both sides, makes [parse] fail with "empty expression"; two
    identifiers with only white space between them make it fail with
    "malformed unary operator". *)
Theorem parse_missing_operand x y c w :
  identifier x = true → identifier y = true → c ∈ binary_connectives →
  is_space w = true →
  parse ([c] ++ x) = Err (Thrown "empty expression")
  ∧ parse (x ++ [c]) = Err (Thrown "empty expression")
  ∧ parse [c] = Err (Thrown "empty expression")
  ∧ parse (x ++ [w] ++ y) = Err (Thrown "malformed unary operator").
Proof.
  intros Hx Hy Hc Hw. pose proof (binary_is_base c Hc) as Hb.
  rewrite !parse_parse_tokens, (tokenise_app_space x w y Hw).
  simpl. tokenise_text.
  repeat split; try (by vm_compute); binary_cases Hc; by vm_compute.
Qed.

Lemma parse_missing_operand_witness :
  parse ([c_or] ++ lit "p") = Err (Thrown "empty expression")
  ∧ parse (lit "p" ++ [c_or]) = Err (Thrown "empty expression")
  ∧ parse [c_or] = Err (Thrown "empty expression")
  ∧ parse (lit "p" ++ [32%N] ++ lit "q")
    = Err (Thrown "malformed unary operator").
Proof.
  apply (parse_missing_operand (lit "p") (lit "q")); try (by vm_compute).
  unfold binary_connectives. rewrite !elem_of_cons. tauto.
Defined.

Lemma space_is_not_base w :
  is_space w = true → includes BASE_OPERATORS w = false.
Proof.
  intros Hw. destruct (includes BASE_OPERATORS w) eqn:E; [|done].
  apply bool_decide_eq_true in E. unfold BASE_OPERATORS in E.
  rewrite !elem_of_cons in E.
  destruct E as [->|[->|[->|[->|[->|[->|[->|[->|E]]]]]]]];
    try (by vm_compute in Hw). by apply elem_of_nil in E.
Qed.

Lemma tokenise_blank input :
  forallb is_space input = true → tokenise input = [].
Proof.
  intros Hblank. rewrite tokenise_filter. unfold tokenise_scan.
  assert (H : ∀ tokens, tokens = [] ∨ tokens = [Sp] →
              List.filter not_sp (fold_left tokenise_step input tokens) = []).
  { induction input as [|w input IH]; intros tokens Htokens.
    - by destruct Htokens as [-> | ->].
    - simpl in Hblank. apply andb_true_iff in Hblank as [Hw Hblank].
      simpl. apply IH; [done|]. right. unfold tokenise_step.
      rewrite (space_is_not_base w Hw), Hw.
      by destruct Htokens as [-> | ->]. }
  by rewrite H; [|left].
Qed.

(** X18. The empty text and every text made of white space only make
    [parse] fail with "empty expression". *)
Theorem parse_blank input :
  forallb is_space input = true →
  parse input = Err (Thrown "empty expression").
Proof.
  intros Hblank. by rewrite parse_parse_tokens, tokenise_blank.
Qed.

Lemma parse_blank_witness :
  parse (lit "   ") = Err (Thrown "empty expression").
Proof. apply parse_blank. vm_compute. reflexivity. Defined.

End ParseShapes.

(** ** A negation at the end of the text *)

Section TrailingNegation.

Lemma combine_unary_node_fold tree :
  combine_unary_node (Arr tree) =
  (r <- fold_right (unary_step combine_unary_node) (Ok []) tree ;; Ok (Arr r)).
Proof. reflexivity. Qed.

Lemma push_at_ends_with_not d tree :
  ends_with_not (push_at d tree (Tok (Op [c_not]))).
Proof.
  revert tree. induction d as [|d IH]; intros tree; simpl.
  - constructor.
  - destruct (last tree) as [[t|inner|]|]; by constructor.
Qed.

Lemma split_loop_snoc tokens token st :
  split_loop (tokens ++ [token]) st =
  (st' <- split_loop tokens st ;; split_step st' token).
Proof.
  revert st. induction tokens as [|t tokens IH]; intros st; simpl.
  - by destruct (split_step st token).
  - destruct (split_step st t); [|done]. simpl. apply IH.
Qed.

Lemma split_by_parens_ends_with_not tokens tree :
  split_by_parens (tokens ++ [Op [c_not]]) = Ok tree → ends_with_not tree.
Proof.
  unfold split_by_parens. rewrite split_loop_snoc.
  destruct (split_loop tokens ([], 0%Z)) as [[tree0 depth]|]; [|done].
  cbn [bind split_step].
  rewrite !bool_decide_eq_false_2 by done.
  unfold push_with_depth.
  destruct (depth =? 0)%Z.
  { intros [= <-]. apply (push_at_ends_with_not 0). }
  destruct (depth <? 0)%Z; [done|].
  intros [= <-]. apply push_at_ends_with_not.
Qed.

Lemma fold_unary_step_Err rec tree e :
  fold_right (unary_step rec) (Err e) tree = Err e.
Proof. induction tree as [|x tree IH]; [done|]. simpl. by rewrite IH. Qed.

Lemma fold_unary_step_keeps_undefined rec tree acc r :
  fold_right (unary_step rec) (Ok acc) tree = Ok r →
  Undefined ∈ leaves_of acc → Undefined ∈ leaves_of r.
Proof.
  revert r. induction tree as [|x tree IH]; intros r.
  { by intros [= <-]. }
  cbn [fold_right].
  destruct (fold_right (unary_step rec) (Ok acc) tree) as [result|]; [|done].
  intros Hstep Hacc. specialize (IH result eq_refl Hacc).
  unfold unary_step in Hstep. cbn [bind] in Hstep.
  assert (Hcons : ∀ y, Undefined ∈ leaves_of (y :: result)).
  { intros y. rewrite leaves_of_cons, elem_of_app. by right. }
  destruct x as [[s| |s]|l|]; try done; try (by injection Hstep as <-).
  - case_bool_decide; [|by injection Hstep as <-].
    injection Hstep as <-.
    destruct result as [|h rest]; [by apply elem_of_nil in IH|].
    cbn [shift fst snd]. rewrite leaves_of_cons.
    change (leaves (Arr [Tok (Op s); h])) with (leaves_of [Tok (Op s); h]).
    rewrite !leaves_of_cons in *. simpl. rewrite app_nil_r.
    rewrite elem_of_cons. by right.
  - destruct (rec (Arr l)); [|done]. by injection Hstep as <-.
Qed.

Lemma combine_unary_ends_with_not tree r :
  ends_with_not tree →
  fold_right (unary_step combine_unary_node) (Ok []) tree = Ok r →
  Undefined ∈ leaves_of r.
Proof.
  intros Hends. revert r.
  induction Hends as [front|front inner _ IH]; intros r;
    rewrite fold_right_app.
  - cbn [fold_right unary_step bind].
    rewrite bool_decide_eq_true_2 by done. cbn [shift fst snd].
    intros H. eapply fold_unary_step_keeps_undefined; [exact H|].
    unfold leaves_of. simpl. rewrite !elem_of_cons. tauto.
  - cbn [fold_right unary_step bind]. rewrite combine_unary_node_fold.
    destruct (fold_right _ (Ok []) inner) as [r'|e] eqn:Hinner.
    + cbn [bind]. intros H.
      eapply fold_unary_step_keeps_undefined; [exact H|].
      rewrite leaves_of_singleton_Arr. by apply IH.
    + cbn [bind]. by rewrite fold_unary_step_Err.
Qed.

Lemma parse_tokens_ends_with_not_grouped tokens tree :
  split_by_parens (tokens ++ [Op [c_not]]) = Ok tree →
  parse_tokens (tokens ++ [Op [c_not]]) = Err TypeError.
Proof.
  intros Hsplit. unfold parse_tokens. rewrite Hsplit.
  apply split_by_parens_ends_with_not in Hsplit. cbn [bind].
  destruct (combine_unary tree) as [r|e] eqn:Hcombine.
  2:{ by apply combine_unary_Err in Hcombine as ->. }
  cbn [bind].
  assert (Hundef : Undefined ∈ leaves_of r).
  { unfold combine_unary in Hcombine.
    rewrite combine_unary_node_fold in Hcombine.
    destruct (fold_right _ _ tree) as [r0|] eqn:Hfold; [|done].
    injection Hcombine as <-.
    by eapply combine_unary_ends_with_not. }
  destruct (process_operators_fuel_defined (S (weight r)) r [[c_iff]])
    as [_ Herr]; [lia|].
  unfold process_operators. by rewrite (Herr Hundef).
Qed.

(** X19. A text that ends with the negation character never parses, and
    never fails with one of the messages of [reformat]: [parse] fails with
    the [TypeError], or with "cannot push with negative depth" when the
    grouping throws; when the tokens of what precedes the negation hold no
    parenthesis it is the [TypeError]. *)
Theorem parse_trailing_negation s :
  (parse (s ++ [c_not]) = Err TypeError
   ∨ parse (s ++ [c_not]) = Err (Thrown "cannot push with negative depth"))
  ∧ (forallb (fun t => negb (is_paren t)) (tokenise s) = true →
     parse (s ++ [c_not]) = Err TypeError).
Proof.
  assert (Htok : tokenise (s ++ [c_not]) = tokenise s ++ [Op [c_not]]).
  { rewrite <- (app_nil_r [c_not]) at 1.
    by rewrite (tokenise_app_operator s c_not []). }
  rewrite !parse_parse_tokens, Htok. split.
  - destruct (split_by_parens (tokenise s ++ [Op [c_not]])) as [tree|e]
      eqn:Hsplit.
    + left. by eapply parse_tokens_ends_with_not_grouped.
    + right. unfold parse_tokens. rewrite Hsplit.
      by apply split_by_parens_Err in Hsplit as ->.
  - intros Hflat. eapply parse_tokens_ends_with_not_grouped.
    unfold split_by_parens. rewrite split_loop_flat; [done|].
    by rewrite forallb_app, Hflat.
Qed.

Lemma parse_trailing_negation_witness :
  parse (lit "p" ++ [c_and] ++ lit "q" ++ [c_not]) = Err TypeError.
Proof.
  apply (proj2 (parse_trailing_negation (lit "p" ++ [c_and] ++ lit "q"))).
  vm_compute. reflexivity.
Defined.

End TrailingNegation.

(** ** Evaluation and truth tables *)

Section TruthTables.

Lemma ast_nested_ind (P : ast → Prop) :
  (∀ name, P (Leaf name)) →
  (∀ op args, Forall P args → P (Node op args)) →
  ∀ t, P t.
Proof.
  intros HL HN. fix IH 1. intros [name|op args]; [apply HL|].
  apply HN. induction args as [|a args IHargs]; constructor;
    [apply IH|apply IHargs].
Qed.

Lemma evaluate_agree (t : ast) (ctx1 ctx2 : gmap str bool) :
  (∀ name, name ∈ lit "undefined" :: leaf_names t →
           ctx1 !! name = ctx2 !! name) →
  evaluate t ctx1 = evaluate t ctx2.
Proof.
  induction t as [name|op args IHargs] using ast_nested_ind; intros Hagree.
  { simpl. unfold evaluate_leaf. rewrite Hagree; [done|].
    simpl. rewrite !elem_of_cons. tauto. }
  assert (Hundef : evaluate_undefined ctx1 = evaluate_undefined ctx2).
  { unfold evaluate_undefined, evaluate_leaf.
    rewrite Hagree; [done|]. apply list_elem_of_here. }
  assert (Harg : ∀ a, a ∈ args → evaluate a ctx1 = evaluate a ctx2).
  { intros a Ha. rewrite Forall_forall in IHargs. apply IHargs; [done|].
    intros name Hname. apply Hagree.
    rewrite elem_of_cons in Hname. rewrite elem_of_cons.
    destruct Hname as [->|Hname]; [by left|right].
    simpl. apply list_elem_of_In, in_flat_map. exists a.
    by rewrite <- !list_elem_of_In. }
  cbn [evaluate].
  destruct args as [|a0 [|a1 args]].
  - by rewrite Hundef.
  - rewrite Hundef, (Harg a0) by apply list_elem_of_here. done.
  - rewrite (Harg a0), (Harg a1); [done| |].
    + apply list_elem_of_further, list_elem_of_here.
    + apply list_elem_of_here.
Qed.

(** X20. The value of a tree depends on the assignment only through the
    names of the leaves of the tree and the key ["undefined"] (which stands
    for a missing operand): two assignments that agree on these give the
    same value. *)
Theorem evaluate_depends_on_leaves (t : ast) (ctx1 ctx2 : gmap str bool) :
  (∀ name, name ∈ lit "undefined" :: leaf_names t →
           ctx1 !! name = ctx2 !! name) →
  evaluate t ctx1 = evaluate t ctx2.
Proof. apply evaluate_agree. Qed.

Lemma evaluate_depends_on_leaves_witness :
  evaluate (Node [c_and] [Leaf sym_a; Leaf sym_b]) ctx_both_cases
  = evaluate (Node [c_and] [Leaf sym_a; Leaf sym_b])
      (<[sym_a := true]> (<[sym_b := false]> ∅)).
Proof.
  apply evaluate_depends_on_leaves. intros name Hname. simpl in Hname.
  rewrite !elem_of_cons in Hname.
  destruct Hname as [->|[->|[->|Hname]]]; try (by vm_compute).
  by apply elem_of_nil in Hname.
Defined.

Lemma indexOf_Some (arr : list str) (x : str) i : indexOf arr x = Some i → arr !! i = Some x.
Proof.
  revert i. induction arr as [|y arr IH]; intros i; [done|].
  simpl. case_bool_decide as Hy.
  - intros [= <-]. by subst.
  - destruct (indexOf arr x) as [j|]; [|done]. intros [= <-]. by apply IH.
Qed.

Lemma indexOf_elem (arr : list str) (x : str) : x ∈ arr → ∃ i, indexOf arr x = Some i.
Proof.
  induction arr as [|y arr IH]; [by intros ?%elem_of_nil|].
  intros Hx. simpl. case_bool_decide as Hy; [by eexists|].
  apply elem_of_cons in Hx as [->|Hx]; [done|].
  destruct (IH Hx) as [i ->]. by eexists.
Qed.

Lemma first_occurrences_elem (arr : list str) (x : str) : x ∈ first_occurrences arr ↔ x ∈ arr.
Proof.
  unfold first_occurrences. split.
  - intros Hx. apply list_elem_of_In, in_map_iff in Hx as ([i y] & <- & Hin).
    apply filter_In in Hin as [Hin _]. apply list_elem_of_In in Hin.
    apply elem_of_lookup_imap in Hin as (j & z & [= -> ->] & Hz).
    by eapply list_elem_of_lookup_2.
  - intros Hx. destruct (indexOf_elem arr x Hx) as [i Hi].
    apply list_elem_of_In, in_map_iff. exists (i, x). split; [done|].
    apply filter_In. split.
    + apply list_elem_of_In.
      apply (elem_of_lookup_imap_2 (fun i sym => (i, sym))).
      by apply indexOf_Some.
    + by apply bool_decide_eq_true.
Qed.

Lemma first_occurrences_NoDup arr : NoDup (first_occurrences arr).
Proof.
  unfold first_occurrences.
  change (NoDup (snd <$> List.filter
            (fun p : nat * str => bool_decide (indexOf arr p.2 = Some p.1))
            (imap (fun i sym => (i, sym)) arr))).
  apply NoDup_fmap_2_strong.
  - intros [i x] [j y] Hp Hq. simpl. intros <-.
    apply list_elem_of_In, filter_In in Hp as [_ Hp].
    apply list_elem_of_In, filter_In in Hq as [_ Hq].
    apply bool_decide_eq_true in Hp, Hq. simpl in *. congruence.
  - apply NoDup_ListNoDup, List.NoDup_filter, NoDup_ListNoDup.
    apply (NoDup_fmap_1 fst).
    rewrite fmap_imap.
    rewrite (imap_ext _ (fun j _ => id j)) by done.
    rewrite imap_seq_0, list_fmap_id. apply NoDup_seq.
Qed.

Lemma first_occurrences_sublist arr : sublist (first_occurrences arr) arr.
Proof.
  unfold first_occurrences.
  assert (Hsnd : map snd (imap (fun i sym => (i, sym)) arr) = arr).
  { change (snd <$> imap (fun (i : nat) (sym : str) => (i, sym)) arr = arr).
    rewrite fmap_imap.
    rewrite (imap_ext _ (const id)) by done.
    by rewrite imap_const, list_fmap_id. }
  assert (Hsub : ∀ (f : nat * str → bool) l,
            sublist (map snd (List.filter f l)) (map snd l)).
  { intros f l. induction l as [|p l IH]; [constructor|].
    simpl. destruct (f p); simpl; by constructor. }
  specialize (Hsub (fun p => bool_decide (indexOf arr p.2 = Some p.1))
                   (imap (fun i sym => (i, sym)) arr)).
  by rewrite Hsnd in Hsub.
Qed.

Lemma elem_of_flat_map {A B} (f : A → list B) (l : list A) (y : B) :
  y ∈ flat_map f l ↔ ∃ x, x ∈ l ∧ y ∈ f x.
Proof.
  rewrite list_elem_of_In, in_flat_map. split.
  - intros (x & Hx & Hy). exists x. by rewrite !list_elem_of_In.
  - intros (x & Hx & Hy). exists x. by rewrite <- !list_elem_of_In.
Qed.

Lemma find_symbols_elem (t : ast) (x : str) :
  x ∈ find_symbols t ↔ x ∈ leaf_names t ∧ x ≠ lit "1" ∧ x ≠ lit "0".
Proof.
  induction t as [name|op args IHargs] using ast_nested_ind.
  - simpl. case_bool_decide as H1; case_bool_decide as H0; simpl;
      rewrite ?list_elem_of_singleton.
    + split; [by intros ?%elem_of_nil|]. intros (-> & ? & ?). done.
    + split; [by intros ?%elem_of_nil|]. intros (-> & ? & ?). done.
    + split; [by intros ?%elem_of_nil|]. intros (-> & ? & ?). done.
    + split; [by intros ->|]. by intros (-> & ? & ?).
  - simpl. rewrite !elem_of_flat_map. rewrite Forall_forall in IHargs. split.
    + intros (a & Ha & Hx). apply (IHargs a Ha) in Hx as (Hx & H1 & H0).
      split; [|done]. by exists a.
    + intros [(a & Ha & Hx) [H1 H0]].
      exists a. split; [done|]. by apply (IHargs a Ha).
Qed.

Lemma first_occurrences_cons (x : str) (arr : list str) :
  first_occurrences (x :: arr)
  = x :: List.filter (fun y => negb (bool_decide (y = x)))
           (first_occurrences arr).
Proof.
  unfold first_occurrences. rewrite imap_cons.
  cbn [List.filter fst snd indexOf].
  rewrite (bool_decide_eq_true_2 (x = x)) by done.
  rewrite (bool_decide_eq_true_2 (Some 0 = Some 0)) by done.
  cbn [map snd]. f_equal.
  assert (Hshift : imap ((fun (i : nat) (sym : str) => (i, sym)) ∘ S) arr
                   = map (fun p : nat * str => (S p.1, p.2))
                         (imap (fun i sym => (i, sym)) arr)).
  { change (imap ((fun (i : nat) (sym : str) => (i, sym)) ∘ S) arr
            = (fun p : nat * str => (S p.1, p.2))
                <$> imap (fun i sym => (i, sym)) arr).
    rewrite fmap_imap. by apply imap_ext. }
  rewrite Hshift. clear Hshift.
  induction (imap (fun (i : nat) (sym : str) => (i, sym)) arr)
    as [|[i y] l IH]; [done|].
  cbn [map List.filter fst snd].
  destruct (decide (x = y)) as [->|Hne].
  - rewrite (bool_decide_eq_true_2 (y = y)) by done.
    rewrite (bool_decide_eq_false_2 (Some 0 = Some (S i))) by done.
    destruct (bool_decide (indexOf arr y = Some i)); [|exact IH].
    cbn [map List.filter snd].
    rewrite (bool_decide_eq_true_2 (y = y)) by done. exact IH.
  - rewrite (bool_decide_eq_false_2 (x = y)) by done.
    destruct (indexOf arr y) as [j|] eqn:Hj; cbn [fmap option_fmap option_map].
    + destruct (decide (j = i)) as [->|Hji].
      * rewrite (bool_decide_eq_true_2 (Some (S i) = Some (S i))) by done.
        rewrite (bool_decide_eq_true_2 (Some i = Some i)) by done.
        cbn [map List.filter snd].
        rewrite (bool_decide_eq_false_2 (y = x)) by done.
        cbn [negb]. by rewrite IH.
      * rewrite (bool_decide_eq_false_2 (Some (S j) = Some (S i)))
          by congruence.
        rewrite (bool_decide_eq_false_2 (Some j = Some i)) by congruence.
        exact IH.
    + rewrite (bool_decide_eq_false_2 (None = Some (S i))) by done.
      rewrite (bool_decide_eq_false_2 (None = Some i)) by done.
      exact IH.
Qed.

Lemma filter_keeps_order (f : str → bool) (l : list str) j k x y :
  j < k → List.filter f l !! j = Some x → List.filter f l !! k = Some y →
  ∃ j' k', j' < k' ∧ l !! j' = Some x ∧ l !! k' = Some y.
Proof.
  revert j k. induction l as [|z l IH]; intros j k Hjk; [done|].
  cbn [List.filter]. destruct (f z).
  - destruct j as [|j]; destruct k as [|k]; try lia.
    + intros [= <-] Hy. simpl in Hy.
      assert (Hin : y ∈ l).
      { apply list_elem_of_lookup_2, list_elem_of_In, filter_In in Hy as [Hy _].
        by apply list_elem_of_In. }
      apply list_elem_of_lookup_1 in Hin as [k' Hk'].
      exists 0, (S k'). split; [lia|done].
    + simpl. intros Hx Hy.
      destruct (IH j k ltac:(lia) Hx Hy) as (j' & k' & ? & ? & ?).
      exists (S j'), (S k'). split; [lia|done].
  - intros Hx Hy. destruct (IH j k Hjk Hx Hy) as (j' & k' & ? & ? & ?).
    exists (S j'), (S k'). split; [lia|done].
Qed.

(** Of two kept elements the one listed first is the one that occurs
    first in [arr]. *)
Lemma first_occurrences_order (arr : list str) j k x y :
  j < k →
  first_occurrences arr !! j = Some x → first_occurrences arr !! k = Some y →
  ∃ p q, indexOf arr x = Some p ∧ indexOf arr y = Some q ∧ p < q.
Proof.
  revert j k. induction arr as [|a arr IH]; intros j k Hjk; [done|].
  rewrite first_occurrences_cons.
  assert (Hlater : ∀ i z,
            List.filter (fun y => negb (bool_decide (y = a)))
              (first_occurrences arr) !! i = Some z →
            z ≠ a ∧ ∃ q, indexOf arr z = Some q).
  { intros i z Hz.
    apply list_elem_of_lookup_2, list_elem_of_In, filter_In in Hz as [Hz Hne].
    apply negb_true_iff, bool_decide_eq_false in Hne. split; [done|].
    apply indexOf_elem, first_occurrences_elem. by apply list_elem_of_In. }
  destruct j as [|j]; destruct k as [|k]; try lia.
  - intros [= <-] Hy. simpl in Hy.
    destruct (Hlater k y Hy) as (Hne & q & Hq).
    exists 0, (S q). simpl.
    rewrite (bool_decide_eq_true_2 (a = a)) by done.
    rewrite (bool_decide_eq_false_2 (a = y)) by done.
    rewrite Hq. split; [done|]. split; [done|lia].
  - simpl. intros Hx Hy.
    destruct (Hlater j x Hx) as (Hxa & _).
    destruct (Hlater k y Hy) as (Hya & _).
    destruct (filter_keeps_order _ _ j k x y ltac:(lia) Hx Hy)
      as (j' & k' & Hjk' & Hx' & Hy').
    destruct (IH j' k' Hjk' Hx' Hy') as (p & q & Hp & Hq & Hpq).
    exists (S p), (S q).
    rewrite (bool_decide_eq_false_2 (a = x)) by done.
    rewrite (bool_decide_eq_false_2 (a = y)) by done.
    rewrite Hp, Hq. split; [done|]. split; [done|lia].
Qed.

Lemma find_symbols_filter (t : ast) :
  find_symbols t
  = List.filter (fun name => negb (bool_decide (name = lit "1"))
                             && negb (bool_decide (name = lit "0")))
                (leaf_names t).
Proof.
  induction t as [name|op args IHargs] using ast_nested_ind.
  - simpl. by destruct (negb _ && negb _).
  - simpl. induction IHargs as [|a args Ha _ IH]; [done|].
    simpl. by rewrite List.filter_app, Ha, IH.
Qed.

(** X21. The symbols of a truth table: the list [create_truth_table]
    enumerates over holds each leaf name other than ["1"] and ["0"] exactly
    once, and nothing else, in the order of first occurrence in the tree:
    [find_symbols] lists the leaf names other than ["1"] and ["0"] from left
    to right, the filter keeps the first element and, of the rest, what
    differs from it, and of two symbols the one listed first is the one
    whose first occurrence in that list comes first. *)
Theorem table_symbols (t : ast) :
  let symbols := first_occurrences (find_symbols t) in
  NoDup symbols
  ∧ sublist symbols (find_symbols t)
  ∧ (∀ x, x ∈ symbols ↔ x ∈ leaf_names t ∧ x ≠ lit "1" ∧ x ≠ lit "0")
  ∧ find_symbols t
    = List.filter (fun name => negb (bool_decide (name = lit "1"))
                               && negb (bool_decide (name = lit "0")))
                  (leaf_names t)
  ∧ (∀ j k x y, j < k → symbols !! j = Some x → symbols !! k = Some y →
       ∃ p q, indexOf (find_symbols t) x = Some p
              ∧ indexOf (find_symbols t) y = Some q ∧ p < q)
  ∧ first_occurrences [] = []
  ∧ (∀ x arr, first_occurrences (x :: arr)
              = x :: List.filter (fun y => negb (bool_decide (y = x)))
                       (first_occurrences arr)).
Proof.
  split; [apply first_occurrences_NoDup|].
  split; [apply first_occurrences_sublist|].
  split; [intros x; by rewrite first_occurrences_elem, find_symbols_elem|].
  split; [apply find_symbols_filter|].
  split; [intros j k x y; apply first_occurrences_order|].
  split; [done|]. apply first_occurrences_cons.
Qed.

Lemma table_symbols_witness :
  ∃ p q,
    indexOf [sym_a; sym_b; sym_a] sym_a = Some p
    ∧ indexOf [sym_a; sym_b; sym_a] sym_b = Some q ∧ p < q.
Proof.
  destruct (table_symbols (Node [c_or] [Leaf sym_a; Node [c_and]
                             [Leaf sym_b; Leaf sym_a]]))
    as (_ & _ & _ & _ & Horder & _).
  apply (Horder 0 1 sym_a sym_b); [lia|vm_compute; reflexivity..].
Defined.

Lemma input_bit_testbit (i : Z) (bit : nat) : input_bit i bit = Z.testbit i (Z.of_nat bit).
Proof.
  unfold input_bit. rewrite Z.shiftl_1_l.
  assert (Hbits : ∀ n, (0 ≤ n)%Z →
            Z.testbit (Z.land i (2 ^ Z.of_nat bit)) n
            = Z.testbit i n && (Z.of_nat bit =? n)%Z).
  { intros n Hn. rewrite Z.land_spec, Z.pow2_bits_eqb by lia. done. }
  destruct (Z.testbit i (Z.of_nat bit)) eqn:E.
  - apply negb_true_iff, Z.eqb_neq. intros H0.
    specialize (Hbits (Z.of_nat bit) ltac:(lia)).
    rewrite H0, Z.bits_0, E, Z.eqb_refl in Hbits. done.
  - apply negb_false_iff, Z.eqb_eq, Z.bits_inj'. intros n Hn.
    rewrite Hbits, Z.bits_0 by done.
    destruct (Z.of_nat bit =? n)%Z eqn:En; [|by rewrite andb_false_r].
    apply Z.eqb_eq in En as <-. by rewrite E.
Qed.

Lemma fold_row (i : Z) (symbols : list str) (k : nat) (m : gmap str bool)
    (l : list bool) :
  NoDup symbols →
  fold_left (fun (st : gmap str bool * list bool) (p : nat * str) =>
               let input := input_bit i p.1 in
               (js_set st.1 p.2 input, st.2 ++ [input]))
            (imap (fun bit sym => (k + bit, sym)) symbols) (m, l)
  = (delete (lit "__proto__")
       (list_to_map (zip symbols (map (input_bit i) (seq k (length symbols)))))
     ∪ m,
     l ++ map (input_bit i) (seq k (length symbols))).
Proof.
  intros Hnodup. revert k m l.
  induction Hnodup as [|sym symbols Hnotin _ IH]; intros k m l.
  { simpl. by rewrite delete_empty, (left_id ∅ (∪)), app_nil_r. }
  rewrite imap_cons. cbn [fold_left length seq map zip_with].
  rewrite list_to_map_cons.
  rewrite (imap_ext _ (fun bit sym => (S k + bit, sym))).
  2:{ intros j x _. simpl. f_equal. lia. }
  rewrite IH. cbn [fst snd]. rewrite Nat.add_0_r. f_equal.
  - unfold js_set. case_bool_decide as Hproto.
    + subst sym. by rewrite delete_insert_eq.
    + rewrite delete_insert_ne by done.
      rewrite <- insert_union_r, insert_union_l; [done|].
      rewrite lookup_delete_ne by done.
      apply not_elem_of_list_to_map_1. rewrite fst_zip; [done|].
      by rewrite length_map, length_seq.
  - by rewrite <- app_assoc.
Qed.

(** The assignment a row is evaluated under: each symbol bound to its
    input, except ["__proto__"], which stays unbound. *)
Lemma table_row_spec (t : ast) (symbols : list str) (i : Z) :
  NoDup symbols →
  table_row t symbols i =
  {| row_inputs := map (input_bit i) (seq 0 (length symbols));
     output := evaluate t (delete (lit "__proto__") (list_to_map
                 (zip symbols (map (input_bit i) (seq 0 (length symbols)))))) |}.
Proof.
  intros Hnodup. unfold table_row.
  rewrite (imap_ext _ (fun bit sym => (0 + bit, sym))) by done.
  rewrite fold_row by done. by rewrite (right_id ∅ (∪)).
Qed.

Lemma length_zero_nil {A} (l : list A) : length l = 0 → l = [].
Proof. by destruct l. Qed.

(** X22. The size of a truth table.  With [n] symbols, [n] at most 4, the
    table lists the symbols and has [2 ^ n] rows of [n] inputs each (one
    row without inputs when there is no symbol); with more than 4 symbols
    it has neither symbols nor rows. *)
Theorem table_size (t : ast) :
  let symbols := first_occurrences (find_symbols t) in
  let n := length symbols in
  (n ≤ 4 →
   inputs (create_truth_table t) = symbols
   ∧ length (body (create_truth_table t)) = 2 ^ n
   ∧ Forall (fun r => length (row_inputs r) = n) (body (create_truth_table t)))
  ∧ (4 < n →
     inputs (create_truth_table t) = [] ∧ body (create_truth_table t) = []).
Proof.
  intros symbols n. subst n. unfold create_truth_table. fold symbols.
  pose proof (first_occurrences_NoDup (find_symbols t)) as Hnodup.
  fold symbols in Hnodup.
  split; intros Hn.
  - case_bool_decide as H0.
    + simpl. rewrite H0, (length_zero_nil symbols H0).
      repeat split. by repeat constructor.
    + rewrite bool_decide_eq_true_2 by done. simpl.
      split; [done|]. split; [by rewrite length_map, length_seq|].
      apply Forall_forall. intros r Hr.
      apply list_elem_of_fmap in Hr as (i & -> & _).
      rewrite table_row_spec by done. simpl.
      by rewrite length_map, length_seq.
  - rewrite bool_decide_eq_false_2 by lia.
    rewrite bool_decide_eq_false_2 by lia. done.
Qed.

Lemma table_size_witness :
  inputs (create_truth_table (Node [c_or] [Leaf sym_a; Leaf sym_b]))
  = [sym_a; sym_b]
  ∧ length (body (create_truth_table (Node [c_or] [Leaf sym_a; Leaf sym_b])))
    = 4.
Proof.
  destruct (table_size (Node [c_or] [Leaf sym_a; Leaf sym_b])) as [H _].
  destruct H as (Hi & Hb & _); [vm_compute; lia|].
  split; [exact Hi|exact Hb].
Defined.

(** X23. The rows of a truth table.  Row [i] has as inputs the bits 0, 1,
    ... of [i], one for each symbol in the order of the symbols, and as
    output the value of the tree under the assignment that binds each symbol
    other than ["__proto__"] to its input and nothing else (the assignment
    [context["__proto__"] = input] makes no own property). *)
Theorem table_rows (t : ast) (i : nat) (r : row) :
  let symbols := first_occurrences (find_symbols t) in
  body (create_truth_table t) !! i = Some r →
  row_inputs r
  = map (fun bit => Z.testbit (Z.of_nat i) (Z.of_nat bit))
        (seq 0 (length symbols))
  ∧ output r = evaluate t (delete (lit "__proto__")
                             (list_to_map (zip symbols (row_inputs r)))).
Proof.
  intros symbols. unfold create_truth_table. fold symbols.
  pose proof (first_occurrences_NoDup (find_symbols t)) as Hnodup.
  fold symbols in Hnodup.
  case_bool_decide as H0.
  { simpl. rewrite (length_zero_nil symbols H0).
    destruct i as [|i]; [|done]. intros [= <-]. simpl.
    by rewrite delete_empty. }
  case_bool_decide as H4; [|done]. simpl.
  rewrite list_lookup_fmap.
  destruct (seq 0 (2 ^ length symbols) !! i) as [j|] eqn:Hj; [|done].
  apply lookup_seq in Hj as [-> _]. simpl. intros [= <-].
  rewrite table_row_spec by done. simpl. split; [|done].
  apply map_ext. intros bit. apply input_bit_testbit.
Qed.

Lemma table_rows_witness :
  let t := Node [c_not] [Leaf (lit "__proto__")] in
  let r := {| row_inputs := [false];
              output := VBool false |} in
  row_inputs r
  = map (fun bit => Z.testbit (Z.of_nat 0) (Z.of_nat bit)) (seq 0 1)
  ∧ output r = evaluate t (delete (lit "__proto__")
                 (list_to_map (zip [lit "__proto__"] (row_inputs r)))).
Proof.
  apply (table_rows (Node [c_not] [Leaf (lit "__proto__")]) 0).
  vm_compute. reflexivity.
Defined.

Lemma bits_index (bs : list bool) :
  ∃ i, i < 2 ^ length bs
       ∧ map (fun bit => Z.testbit (Z.of_nat i) (Z.of_nat bit))
             (seq 0 (length bs)) = bs.
Proof.
  induction bs as [|b bs (i & Hi & Hbits)].
  { exists 0. split; [simpl; lia|done]. }
  exists (Nat.b2n b + 2 * i). split.
  { cbn [length]. rewrite Nat.pow_succ_r'. destruct b; simpl; lia. }
  assert (Hz : Z.of_nat (Nat.b2n b + 2 * i) = (2 * Z.of_nat i + Z.b2z b)%Z)
    by (destruct b; simpl; lia).
  rewrite Hz. cbn [length seq map]. f_equal.
  { apply Z.testbit_0_r. }
  rewrite <- seq_shift, map_map. rewrite <- Hbits at 2.
  apply map_ext. intros bit.
  rewrite Nat2Z.inj_succ. apply Z.testbit_succ_r. lia.
Qed.

Lemma lookup_zip_map (f : str → bool) (l : list str) (x : str) :
  x ∈ l →
  (list_to_map (zip l (map f l)) : gmap str bool) !! x = Some (f x).
Proof.
  induction l as [|y l IH]; [by intros ?%elem_of_nil|].
  intros Hx. cbn [map zip_with]. rewrite list_to_map_cons.
  destruct (decide (y = x)) as [->|Hne]; [by rewrite lookup_insert_eq|].
  rewrite lookup_insert_ne by done. apply IH.
  apply elem_of_cons in Hx as [->|Hx]; done.
Qed.

(** X24. A truth table is complete.  For a tree with at most 4 symbols and
    an assignment whose own keys, among the names the tree holds, are the
    symbols other than ["__proto__"], some row of the table has as inputs
    the values the assignment gives to the symbols, in their order (false
    for ["__proto__"]), and as output the value of the tree under that
    assignment. *)
Theorem table_complete (t : ast) (ctx : gmap str bool) :
  let symbols := first_occurrences (find_symbols t) in
  length symbols ≤ 4 →
  (∀ name, name ∈ symbols → name ≠ lit "__proto__" → is_Some (ctx !! name)) →
  (∀ name, name ∈ lit "undefined" :: leaf_names t →
           name ∉ symbols ∨ name = lit "__proto__" → ctx !! name = None) →
  ∃ i r, body (create_truth_table t) !! i = Some r
         ∧ row_inputs r = map (fun sym => default false (ctx !! sym)) symbols
         ∧ output r = evaluate t ctx.
Proof.
  intros symbols Hn Hbound Hother.
  pose proof (first_occurrences_NoDup (find_symbols t)) as Hnodup.
  fold symbols in Hnodup.
  set (value := fun sym => default false (ctx !! sym)).
  assert (Hagree : ∀ name, name ∈ lit "undefined" :: leaf_names t →
            delete (lit "__proto__")
              (list_to_map (zip symbols (map value symbols)) : gmap str bool)
              !! name = ctx !! name).
  { intros name Hname.
    destruct (decide (name = lit "__proto__")) as [->|Hproto].
    { rewrite lookup_delete_eq. symmetry. apply Hother; [done|by right]. }
    rewrite lookup_delete_ne by done.
    destruct (decide (name ∈ symbols)) as [Hin|Hnotin].
    - rewrite lookup_zip_map by done. unfold value.
      by destruct (Hbound name Hin Hproto) as [b ->].
    - rewrite (Hother name Hname (or_introl Hnotin)).
      apply not_elem_of_list_to_map_1. rewrite fst_zip; [done|].
      by rewrite length_map. }
  unfold create_truth_table. fold symbols.
  case_bool_decide as H0.
  { exists 0. eexists. split; [done|]. simpl.
    assert (Hnil := length_zero_nil symbols H0). rewrite Hnil in *.
    split; [done|]. apply evaluate_agree. intros name Hname.
    rewrite <- Hagree by done. simpl. by rewrite delete_empty. }
  rewrite bool_decide_eq_true_2 by done. simpl.
  destruct (bits_index (map value symbols)) as (i & Hi & Hbits).
  rewrite length_map in Hi, Hbits.
  exists i, (table_row t symbols (Z.of_nat i)).
  split.
  { rewrite list_lookup_fmap, lookup_seq_lt by done. done. }
  rewrite table_row_spec by done. simpl.
  assert (Hinputs : map (input_bit (Z.of_nat i)) (seq 0 (length symbols))
                    = map value symbols).
  { rewrite <- Hbits. apply map_ext. intros bit. apply input_bit_testbit. }
  rewrite Hinputs. split; [done|]. by apply evaluate_agree.
Qed.

Lemma table_complete_witness :
  ∃ i r,
    body (create_truth_table (Node [c_or] [Leaf sym_a; Leaf sym_b])) !! i
    = Some r
    ∧ row_inputs r = [true; false]
    ∧ output r = evaluate (Node [c_or] [Leaf sym_a; Leaf sym_b])
                   (<[sym_a := true]> (<[sym_b := false]> ∅)).
Proof.
  assert (Hsymbols : first_occurrences
            (find_symbols (Node [c_or] [Leaf sym_a; Leaf sym_b]))
            = [sym_a; sym_b]) by (vm_compute; reflexivity).
  destruct (table_complete (Node [c_or] [Leaf sym_a; Leaf sym_b])
              (<[sym_a := true]> (<[sym_b := false]> ∅)))
    as (i & r & Hbody & Hinputs & Houtput);
    [| | |exists i, r; split; [exact Hbody|split; [exact Hinputs|exact Houtput]]].
  - rewrite Hsymbols. simpl. lia.
  - rewrite Hsymbols. intros name Hname _.
    rewrite !elem_of_cons in Hname.
    destruct Hname as [->|[->|Hname]]; [by eexists|by eexists|].
    by apply elem_of_nil in Hname.
  - rewrite Hsymbols. intros name Hname Hnot. simpl in Hname.
    rewrite !elem_of_cons in Hname. rewrite !not_elem_of_cons in Hnot.
    destruct Hname as [->|[->|[->|Hname]]].
    + by vm_compute.
    + destruct Hnot as [[? _]|Hnot]; [done|]. by vm_compute in Hnot.
    + destruct Hnot as [(_ & ? & _)|Hnot]; [done|]. by vm_compute in Hnot.
    + by apply elem_of_nil in Hname.
Defined.

End TruthTables.

(** ** The linear form *)

Section LinearForm.

(** X25. [form_rpn] after [parse], for all identifiers and every binary
    connective: [x c y] is rendered as [x y c] and [¬x] as [x ¬], with
    nothing between the parts.  So the rendering does not tell where one
    operand ends and the next begins: [xy c z] and [x c yz] parse to
    different trees with the same rendering. *)
Theorem form_rpn_of_parsed x y z c :
  identifier x = true → identifier z = true →
  identifier (x ++ y) = true → identifier (y ++ z) = true →
  y ≠ [] → c ∈ binary_connectives →
  (t <- parse (x ++ [c] ++ z) ;; Ok (form_rpn t)) = Ok (x ++ z ++ [c])
  ∧ (t <- parse ([c_not] ++ x) ;; Ok (form_rpn t)) = Ok (x ++ [c_not])
  ∧ ∃ t1 t2,
      parse ((x ++ y) ++ [c] ++ z) = Ok t1
      ∧ parse (x ++ [c] ++ (y ++ z)) = Ok t2
      ∧ t1 ≠ t2
      ∧ form_rpn t1 = form_rpn t2.
Proof.
  intros Hx Hz Hxy Hyz Hy Hc. pose proof (binary_is_base c Hc) as Hb.
  assert (Hparse : ∀ u v, identifier u = true → identifier v = true →
            parse (u ++ [c] ++ v) = Ok (Node [c] [Leaf u; Leaf v])).
  { intros u v Hu Hv. rewrite parse_parse_tokens. simpl.
    rewrite tokenise_identifier_operator, tokenise_run_identifier by done.
    clear Hb. binary_cases Hc; by vm_compute. }
  assert (Hnot : parse ([c_not] ++ x) = Ok (Node [c_not] [Leaf x])).
  { rewrite parse_parse_tokens. simpl.
    rewrite tokenise_operator_first, tokenise_run_identifier by done.
    by vm_compute. }
  rewrite (Hparse x z), Hnot by done.
  split; [simpl; by rewrite ?app_nil_r|].
  split; [simpl; by rewrite ?app_nil_r|].
  exists (Node [c] [Leaf (x ++ y); Leaf z]), (Node [c] [Leaf x; Leaf (y ++ z)]).
  split; [by apply Hparse|]. split; [by apply Hparse|]. split.
  - intros [= Heq _]. apply Hy.
    apply (f_equal length) in Heq. rewrite length_app in Heq.
    destruct y; [done|simpl in Heq; lia].
  - simpl. by rewrite ?app_nil_r, <- ?app_assoc.
Qed.

Lemma form_rpn_of_parsed_witness :
  (t <- parse (lit "p" ++ [c_and] ++ lit "r") ;; Ok (form_rpn t))
  = Ok (lit "p" ++ lit "r" ++ [c_and])
  ∧ (t <- parse ([c_not] ++ lit "p") ;; Ok (form_rpn t))
    = Ok (lit "p" ++ [c_not])
  ∧ ∃ t1 t2,
      parse ((lit "p" ++ lit "q") ++ [c_and] ++ lit "r") = Ok t1
      ∧ parse (lit "p" ++ [c_and] ++ (lit "q" ++ lit "r")) = Ok t2
      ∧ t1 ≠ t2
      ∧ form_rpn t1 = form_rpn t2.
Proof.
  apply (form_rpn_of_parsed (lit "p") (lit "q") (lit "r"));
    try (by vm_compute).
  unfold binary_connectives. rewrite !elem_of_cons. tauto.
Defined.

End LinearForm.

(** ** White space, aliases and failures, for all texts *)

Section WholeTexts.

(** X26. White space at either end of a text, or next to a base operator
    character, does not change what [parse] returns. *)
Theorem parse_ignores_white_space s1 s2 w c :
  is_space w = true → includes BASE_OPERATORS c = true →
  parse ([w] ++ s1) = parse s1
  ∧ parse (s1 ++ [w]) = parse s1
  ∧ parse (s1 ++ [w] ++ [c] ++ s2) = parse (s1 ++ [c] ++ s2)
  ∧ parse (s1 ++ [c] ++ [w] ++ s2) = parse (s1 ++ [c] ++ s2).
Proof.
  intros Hw Hc. rewrite !parse_parse_tokens.
  assert (H1 : tokenise ([w] ++ s1) = tokenise s1)
    by exact (tokenise_app_space [] w s1 Hw).
  assert (H2 : tokenise (s1 ++ [w]) = tokenise s1).
  { rewrite <- (app_nil_r [w]).
    by rewrite (tokenise_app_space s1 w [] Hw), app_nil_r. }
  assert (H3 : tokenise (s1 ++ [w] ++ [c] ++ s2) = tokenise (s1 ++ [c] ++ s2)).
  { rewrite (tokenise_app_space s1 w ([c] ++ s2) Hw).
    assert (Hop : tokenise ([c] ++ s2) = [Op [c]] ++ tokenise s2)
      by exact (tokenise_app_operator [] c s2 Hc).
    by rewrite Hop, (tokenise_app_operator s1 c s2 Hc). }
  assert (H4 : tokenise (s1 ++ [c] ++ [w] ++ s2) = tokenise (s1 ++ [c] ++ s2)).
  { assert (Hsp : tokenise ([w] ++ s2) = tokenise s2)
      by exact (tokenise_app_space [] w s2 Hw).
    rewrite (tokenise_app_operator s1 c ([w] ++ s2) Hc), Hsp.
    by rewrite (tokenise_app_operator s1 c s2 Hc). }
  by rewrite H1, H2, H3, H4.
Qed.

Lemma parse_ignores_white_space_witness :
  parse ([32%N] ++ lit "p") = parse (lit "p")
  ∧ parse (lit "p" ++ [32%N]) = parse (lit "p")
  ∧ parse (lit "p" ++ [32%N] ++ [c_and] ++ lit "q")
    = parse (lit "p" ++ [c_and] ++ lit "q")
  ∧ parse (lit "p" ++ [c_and] ++ [32%N] ++ lit "q")
    = parse (lit "p" ++ [c_and] ++ lit "q").
Proof.
  apply (parse_ignores_white_space (lit "p") (lit "q")); reflexivity.
Defined.

(** X27. An alias set off by white space parses like the operator
    character it stands for: for every word whose lower case is a key of
    [EXTRA_OPERATORS] with the one-character value [c], and all texts
    around it. *)
Theorem parse_alias_word s1 s2 word k c w1 w2 :
  (k, [c]) ∈ EXTRA_OPERATORS → toLowerCase word = k →
  is_space w1 = true → is_space w2 = true →
  parse (s1 ++ [w1] ++ word ++ [w2] ++ s2) = parse (s1 ++ [c] ++ s2).
Proof.
  intros Hk Hword Hw1 Hw2. rewrite !parse_parse_tokens. f_equal.
  rewrite (tokenise_app_space s1 w1 (word ++ [w2] ++ s2) Hw1).
  rewrite (tokenise_app_space word w2 s2 Hw2).
  rewrite (tokenise_alias_word word k [c] Hk Hword).
  assert (Hc : includes BASE_OPERATORS c = true).
  { clear Hword. unfold EXTRA_OPERATORS in Hk. rewrite !elem_of_cons in Hk.
    repeat (destruct Hk as [[= -> ->]|Hk]; [by vm_compute|]).
    by apply elem_of_nil in Hk. }
  by rewrite (tokenise_app_operator s1 c s2 Hc).
Qed.

Lemma parse_alias_word_witness :
  parse (lit "p" ++ [32%N] ++ lit "Or" ++ [32%N] ++ lit "q")
  = parse (lit "p" ++ [c_or] ++ lit "q").
Proof.
  apply (parse_alias_word _ _ _ (lit "or")); try reflexivity.
  unfold EXTRA_OPERATORS. rewrite !elem_of_cons. tauto.
Defined.

(** X28. Grouping can fail in one way only, with "cannot push with
    negative depth", and only after an opening parenthesis: every token
    sequence without opening parenthesis is grouped, however many closing
    parentheses it holds. *)
Theorem split_by_parens_failure tokens :
  (∀ e, split_by_parens tokens = Err e →
        e = Thrown "cannot push with negative depth")
  ∧ (Forall (fun token => token ≠ Op [c_open]) tokens →
     ∃ tree, split_by_parens tokens = Ok tree).
Proof.
  split.
  - intros e. apply split_by_parens_Err.
  - apply split_by_parens_without_open.
Qed.

Lemma split_by_parens_failure_witness :
  ∃ tree, split_by_parens [Str sym_a; Op [c_close]; Op [c_close]; Str sym_b]
          = Ok tree.
Proof.
  apply split_by_parens_failure. repeat constructor; discriminate.
Defined.

(** X29. Every failure of [parse], on any text, is one of the five
    messages of [reformat], the message of [push_with_depth], or the
    [TypeError]. *)
Theorem parse_failure_kinds input e :
  parse input = Err e →
  e ∈ reformat_errors
  ∨ e = Thrown "cannot push with negative depth"
  ∨ e = TypeError.
Proof. apply parse_Err. Qed.

Lemma parse_failure_kinds_witness :
  Thrown "malformed expression" ∈ reformat_errors
  ∨ Thrown "malformed expression" = Thrown "cannot push with negative depth"
  ∨ Thrown "malformed expression" = TypeError.
Proof.
  apply (parse_failure_kinds (lit "p q r s")). vm_compute. reflexivity.
Defined.

End WholeTexts.
